(** * onedrive_validate: rule engine, sanitizer and tree walker

    A shallow embedding of [onedrive_validate.py].  Python strings are
    sequences of Unicode code points, so a [str] is a list of code points
    ([N]); lengths and indices that Python computes with (possibly negative)
    integers are in [Z].  The file system is a tree of named nodes; the
    calls the script makes ([os.path.exists], [os.rename], [os.walk]) act
    on it by explicit state passing, and an exception is a [Raised]
    outcome. *)

From Stdlib Require Import Ascii String DecimalString DecimalNat.
From Stdlib Require Import List ZArith NArith Lia Bool Permutation Sorted.
Import ListNotations.

Open Scope Z_scope.

(** ** Python strings *)

Module PyStr.

Definition char := N.
Definition str := list char.

(** A literal: the code points of an ASCII string. *)
Fixpoint py (s : string) : str :=
  match s with
  | EmptyString => []
  | String a r => N_of_ascii a :: py r
  end.

Definition len (s : str) : Z := Z.of_nat (length s).

Fixpoint str_eqb (a b : str) : bool :=
  match a, b with
  | [], [] => true
  | x :: a', y :: b' => N.eqb x y && str_eqb a' b'
  | _, _ => false
  end.

(** [c in s] for a set (or string) of characters. *)
Definition char_in (c : char) (s : list char) : bool := existsb (N.eqb c) s.

(** [x in names] for a set of strings. *)
Definition str_in (x : str) (names : list str) : bool := existsb (str_eqb x) names.

(** [sorted(set(l))]: the distinct code points of [l] in ascending order. *)
Fixpoint insert_uniq (c : char) (l : list char) : list char :=
  match l with
  | [] => [c]
  | x :: t =>
      if N.ltb c x then c :: l
      else if N.eqb c x then l
      else x :: insert_uniq c t
  end.

Definition sorted_set (l : list char) : list char := fold_right insert_uniq [] l.

Definition startswith (s : str) (c : char) : bool :=
  match s with
  | x :: _ => N.eqb x c
  | [] => false
  end.

Definition endswith (s : str) (c : char) : bool :=
  match rev s with
  | x :: _ => N.eqb x c
  | [] => false
  end.

(** [s.rstrip(cs)]: drop the longest suffix made of characters of [cs]. *)
Fixpoint rstrip (cs : list char) (s : str) : str :=
  match s with
  | [] => []
  | c :: t =>
      match rstrip cs t with
      | [] => if char_in c cs then [] else [c]
      | t' => c :: t'
      end
  end.

(** [s.split(c)[0]]: the part before the first [c], all of [s] without one. *)
Fixpoint split_head (c : char) (s : str) : str :=
  match s with
  | [] => []
  | x :: t => if N.eqb x c then [] else x :: split_head c t
  end.

(** [s[-k:]] for a positive [k]. *)
Definition last_chars (k : Z) (s : str) : str :=
  skipn (Z.to_nat (len s - k)) s.

(** [s[:k]] for a non-negative [k]. *)
Definition first_chars (k : Z) (s : str) : str := firstn (Z.to_nat k) s.

(** [s[k:]] for a non-negative [k]. *)
Definition from_char (k : Z) (s : str) : str := skipn (Z.to_nat k) s.

(** [s.rfind(c)]: index of the last [c], [-1] without one. *)
Fixpoint rfind_from (c : char) (s : str) (i last : Z) : Z :=
  match s with
  | [] => last
  | x :: t => rfind_from c t (i + 1) (if N.eqb x c then i else last)
  end.

Definition rfind (c : char) (s : str) : Z := rfind_from c s 0 (-1).

(** [str(n)] for a natural number: its decimal digits. *)
Definition str_of_nat (n : nat) : str :=
  py (NilEmpty.string_of_uint (Nat.to_uint n)).

(** [s.upper()], as far as membership in a set of ASCII names can tell.
    The ASCII letters go to their capitals and every other ASCII
    character is its own upper case.  Of the code points outside ASCII,
    those whose Unicode upper-case mapping consists of ASCII letters only
    are tabulated (sharp s, dotless i, long s, the Latin ligatures); the
    upper-case mapping of any other one contains a code point outside
    ASCII, and the model leaves such a code point in place, which is
    outside ASCII as well. *)
Definition upper_char (c : char) : list char :=
  if (97 <=? c)%N && (c <=? 122)%N then [(c - 32)%N]
  else if (c =? 0xDF)%N then py "SS"
  else if (c =? 0x131)%N then py "I"
  else if (c =? 0x17F)%N then py "S"
  else if (c =? 0xFB00)%N then py "FF"
  else if (c =? 0xFB01)%N then py "FI"
  else if (c =? 0xFB02)%N then py "FL"
  else if (c =? 0xFB03)%N then py "FFI"
  else if (c =? 0xFB04)%N then py "FFL"
  else if (c =? 0xFB05)%N then py "ST"
  else if (c =? 0xFB06)%N then py "ST"
  else [c].

Definition upper (s : str) : str := flat_map upper_char s.

(** [os.path.splitext] (genericpath._splitext with [sep = "/"], no
    [altsep]): the extension starts at the last period of the last path
    component, unless only periods come before it in that component. *)
Definition splitext (p : str) : str * str :=
  let sepIndex := rfind 47%N p in
  let dotIndex := rfind 46%N p in
  if sepIndex <? dotIndex then
    if forallb (N.eqb 46%N)
         (first_chars (dotIndex - (sepIndex + 1)) (from_char (sepIndex + 1) p))
    then (p, [])
    else (first_chars dotIndex p, from_char dotIndex p)
  else (p, []).

End PyStr.

Import PyStr.

(** ** Rule engine *)

Definition FORBIDDEN_CHARS : list char := 34%N :: py "*:<>?/\|".
Definition PROBLEMATIC_CHARS : list char := py "#%".

Definition RESERVED_NAMES : list str :=
  [py "CON"; py "PRN"; py "AUX"; py "NUL"]
  ++ map (fun i => py "COM" ++ str_of_nat i) (seq 1 9)
  ++ map (fun i => py "LPT" ++ str_of_nat i) (seq 1 9).

Definition MAX_PATH_LEN : Z := 400.
Definition MAX_NAME_LEN : Z := 255.

Definition is_control (c : char) : bool :=
  (c <? 32)%N || ((0x7F <=? c)%N && (c <=? 0x9F)%N).

Definition is_zero_width_or_rtl (c : char) : bool :=
  ((0x200B <=? c)%N && (c <=? 0x200F)%N)
  || ((0x202A <=? c)%N && (c <=? 0x202E)%N)
  || ((0x2060 <=? c)%N && (c <=? 0x206F)%N).

Definition has_forbidden_chars (name : str) : list char :=
  sorted_set (filter (fun c => char_in c FORBIDDEN_CHARS) name).

Definition has_problematic_chars (name : str) : list char :=
  sorted_set (filter (fun c => char_in c PROBLEMATIC_CHARS) name).

Definition has_control_chars (name : str) : list char :=
  sorted_set (filter is_control name).

Definition has_zero_width_or_rtl (name : str) : list char :=
  sorted_set (filter is_zero_width_or_rtl name).

Definition is_reserved_name (name : str) : bool :=
  let base := split_head 46%N name in
  str_in (upper base) RESERVED_NAMES.

(** ** Sanitizer *)

(** The character loop of [make_safe_name]: control and zero-width
    characters are skipped, forbidden and problematic ones become an
    underscore, the others are kept. *)
Fixpoint safe_chars (basename : str) : list char :=
  match basename with
  | [] => []
  | c :: t =>
      if is_control c then safe_chars t
      else if is_zero_width_or_rtl c then safe_chars t
      else if char_in c FORBIDDEN_CHARS || char_in c PROBLEMATIC_CHARS
           then 95%N :: safe_chars t
           else c :: safe_chars t
  end.

(** [make_safe_name] after the character loop and up to the substitute
    for an empty name. *)
Definition stripped_name (basename : str) : str :=
  let new_name := safe_chars basename in
  let new_name :=
    if startswith new_name 126%N then 95%N :: from_char 1 new_name
    else new_name in
  let new_name := rstrip (py " .") new_name in
  match new_name with [] => py "_" | _ => new_name end.

(** [make_safe_name] up to and including the reserved-name step. *)
Definition safe_name_unbounded (basename : str) : str :=
  let new_name := stripped_name basename in
  let base := split_head 46%N new_name in
  if str_in (upper base) RESERVED_NAMES then
    let rest := from_char (len base) new_name in
    base ++ py "__" ++ rest
  else new_name.

(** The last step of [make_safe_name]: the bound on the length. *)
Definition limit_name_len (new_name : str) : str :=
  if MAX_NAME_LEN <? len new_name then
    let '(root, ext) := splitext new_name in
    let allowed_root_len := MAX_NAME_LEN - len ext in
    if allowed_root_len <=? 0 then last_chars MAX_NAME_LEN new_name
    else first_chars allowed_root_len root ++ ext
  else new_name.

Definition make_safe_name (basename : str) : str :=
  limit_name_len (safe_name_unbounded basename).

(** ** Outcomes of effectful code *)

(** A call returns ([Done]), lets an exception propagate ([Raised]), or
    is cut off by the bound the model puts on its loops ([OutOfFuel]). *)
Inductive outcome (A : Type) : Type :=
| Done (a : A)
| Raised
| OutOfFuel.

Arguments Done {A} a.
Arguments Raised {A}.
Arguments OutOfFuel {A}.

Definition bind {A B : Type} (m : outcome A) (k : A -> outcome B) : outcome B :=
  match m with
  | Done a => k a
  | Raised => Raised
  | OutOfFuel => OutOfFuel
  end.

Notation "x <- m ;; k" := (bind m (fun x => k))
  (at level 61, m at next level, right associativity).
Notation "' p <- m ;; k" := (bind m (fun x => match x with p => k end))
  (at level 61, p pattern, m at next level, right associativity).

(** ** File system *)

#[local] Set Warnings "-register-all".

(** A node carries an identity ([ino]) that a rename does not change. *)
Inductive node : Type :=
| File (ino : nat)
| Dir (ino : nat) (children : list (str * node)).

(** The entries of one directory, in the order a listing returns them. *)
Definition listing := list (str * node).

Definition ino_of (n : node) : nat :=
  match n with
  | File i => i
  | Dir i _ => i
  end.

Definition is_dir_node (n : node) : bool :=
  match n with
  | File _ => false
  | Dir _ _ => true
  end.

Fixpoint lookup (name : str) (d : listing) : option node :=
  match d with
  | [] => None
  | (n, x) :: t => if str_eqb n name then Some x else lookup name t
  end.

Fixpoint remove_name (name : str) (d : listing) : listing :=
  match d with
  | [] => []
  | (n, x) :: t => if str_eqb n name then t else (n, x) :: remove_name name t
  end.

Fixpoint replace_name (src dst : str) (d : listing) : listing :=
  match d with
  | [] => []
  | (n, x) :: t =>
      if str_eqb n src then (dst, x) :: t else (n, x) :: replace_name src dst t
  end.

Fixpoint replace_node (name : str) (x' : node) (d : listing) : listing :=
  match d with
  | [] => []
  | (n, x) :: t =>
      if str_eqb n name then (n, x') :: t else (n, x) :: replace_node name x' t
  end.

(** The system calls that change the tree. *)
Inductive syscall : Type :=
| Rename (dirpath : list str) (src dst : str).

(** What the operating system lets [os.rename] do: [os dirpath src dst]
    tells whether it carries out the rename of the entry [src] of
    [dirpath] to [dst].  When it does not (no permission, a name or a
    path longer than the file system takes), [os.rename] raises
    [OSError]. *)
Definition policy : Type := list str -> str -> str -> bool.

(** The directory being worked on, the system calls carried out so far,
    and what the operating system lets a rename do. *)
Record world : Type := mk_world {
  entries : listing;
  calls : list syscall;
  permits : policy
}.

(** [os.path.exists(os.path.join(dirpath, name))], for a [name] that is
    one path component other than [.] and [..]: the names the two loops
    of [validate] get from [os.walk], and those [make_safe_name] and
    [get_unique_name] build, which hold no [/] and end with no period. *)
Definition path_exists (d : listing) (name : str) : bool :=
  match lookup name d with
  | Some _ => true
  | None => false
  end.

(** [os.rename] of [src] to [dst], both in the directory [dirpath]
    (rename(2)): a missing source raises, and so does a rename the
    operating system refuses; an existing destination is replaced when
    both are files or when it is an empty directory and the source a
    directory, and raises otherwise. *)
Definition os_rename (dirpath : list str) (src dst : str) (w : world) : outcome world :=
  let logged := calls w ++ [Rename dirpath src dst] in
  match lookup src (entries w) with
  | None => Raised
  | Some x =>
      if negb (permits w dirpath src dst) then Raised
      else if str_eqb src dst then Done (mk_world (entries w) logged (permits w))
      else
        match lookup dst (entries w), x with
        | None, _ =>
            Done (mk_world (replace_name src dst (entries w)) logged (permits w))
        | Some (File _), File _ | Some (Dir _ []), Dir _ _ =>
            Done (mk_world (replace_name src dst (remove_name dst (entries w)))
                    logged (permits w))
        | Some _, _ => Raised
        end
  end.

(** The path of an entry relative to the scanned root, from its
    components, none of them empty. *)
Fixpoint path_join (comps : list str) : str :=
  match comps with
  | [] => []
  | [c] => c
  | c :: t => c ++ 47%N :: path_join t
  end.

(** ** Collision avoidance *)

(** The loop of [get_unique_name]; [fuel] bounds its iterations. *)
Fixpoint unique_loop (fuel : nat) (d : listing) (desired candidate : str)
    (counter : nat) : outcome str :=
  if path_exists d candidate then
    match fuel with
    | O => OutOfFuel
    | S fuel' =>
        let '(root, ext) := splitext desired in
        let candidate := root ++ py "_" ++ str_of_nat counter ++ ext in
        unique_loop fuel' d desired candidate (S counter)
    end
  else Done candidate.

(** [get_unique_name(dirpath, desired)], [d] being the entries of
    [dirpath]; the loop gets one more iteration than [d] has entries. *)
Definition get_unique_name (d : listing) (desired : str) : outcome str :=
  unique_loop (S (length d)) d desired desired 1.

(** ** Classification and repair of one entry *)

(** The checks of [check_and_maybe_fix], in the order of the source:
    the counts of errors and warnings and the flag [rename_needed]. *)
Definition classify (basename rel_path : str) (fix_ : bool) (prefix_len : Z)
    : Z * Z * bool :=
  let errors := 0 in
  let warnings := 0 in
  let rename_needed := false in
  let effective_len := prefix_len + len rel_path in
  let errors := if MAX_PATH_LEN <? effective_len then errors + 1 else errors in
  let '(errors, rename_needed) :=
    if MAX_NAME_LEN <? len basename then (errors + 1, true)
    else (errors, rename_needed) in
  let '(errors, rename_needed) :=
    match has_forbidden_chars basename with
    | [] => (errors, rename_needed)
    | _ => (errors + 1, true)
    end in
  let '(errors, rename_needed) :=
    if endswith basename 32%N || endswith basename 46%N then (errors + 1, true)
    else (errors, rename_needed) in
  let '(errors, rename_needed) :=
    if is_reserved_name basename then (errors + 1, true)
    else (errors, rename_needed) in
  let '(errors, rename_needed) :=
    match has_control_chars basename with
    | [] => (errors, rename_needed)
    | _ => (errors + 1, true)
    end in
  let '(errors, rename_needed) :=
    match has_zero_width_or_rtl basename with
    | [] => (errors, rename_needed)
    | _ => (errors + 1, true)
    end in
  let '(warnings, rename_needed) :=
    match has_problematic_chars basename with
    | [] => (warnings, rename_needed)
    | _ => (warnings + 1, if fix_ then true else rename_needed)
    end in
  let '(warnings, rename_needed) :=
    if startswith basename 126%N
    then (warnings + 1, if fix_ then true else rename_needed)
    else (warnings, rename_needed) in
  (errors, warnings, rename_needed).

(** [check_and_maybe_fix(dirpath, basename, is_dir, fix, root, prefix_len)].
    [dirpath] is given by its components below [root], and the world holds
    the entries of [dirpath].  The result is
    [(errors, warnings, new_basename, did_rename)] and the world after. *)
Definition check_and_maybe_fix (dirpath : list str) (basename : str)
    (is_dir fix_ : bool) (prefix_len : Z) (w : world)
    : outcome (Z * Z * str * bool * world) :=
  let rel_path := path_join (dirpath ++ [basename]) in
  let '(errors, warnings, rename_needed) :=
    classify basename rel_path fix_ prefix_len in
  let new_basename := basename in
  let did_rename := false in
  if fix_ && rename_needed then
    let safe := make_safe_name basename in
    safe_unique <- get_unique_name (entries w) safe ;;
    if negb (str_eqb safe_unique basename) then
      w' <- os_rename dirpath basename safe_unique w ;;
      Done (errors, warnings, safe_unique, true, w')
    else Done (errors, warnings, new_basename, did_rename, w)
  else Done (errors, warnings, new_basename, did_rename, w).

(** ** Tree walker *)

(** One call of [check_and_maybe_fix] as the run saw it: the identity of
    the entry that carried the name when the call was made, the arguments,
    the effective path length that was checked and the results. *)
Record visit : Type := mk_visit {
  v_ino : option nat;
  v_dirpath : list str;
  v_name : str;
  v_is_dir : bool;
  v_len : Z;
  v_errors : Z;
  v_warnings : Z;
  v_new_name : str;
  v_renamed : bool
}.

(** The accumulators of [validate], and the visits made so far. *)
Record totals : Type := mk_totals {
  t_errors : Z;
  t_warnings : Z;
  t_renames : Z;
  t_visits : list visit
}.

Definition state : Type := world * totals.

(** What both loops of [validate] do with one entry: the call and the
    update of the accumulators.  Returns the new name. *)
Definition visit_entry (dirpath : list str) (name : str) (is_dir fix_ : bool)
    (prefix_len : Z) (st : state) : outcome (str * state) :=
  let '(w, t) := st in
  '(e, wn, new_name, did_rename, w') <-
     check_and_maybe_fix dirpath name is_dir fix_ prefix_len w ;;
  let v := mk_visit (option_map ino_of (lookup name (entries w))) dirpath name
             is_dir (prefix_len + len (path_join (dirpath ++ [name])))
             e wn new_name did_rename in
  Done (new_name,
        (w', mk_totals (t_errors t + e) (t_warnings t + wn)
               (if did_rename then t_renames t + 1 else t_renames t)
               (t_visits t ++ [v]))).

(** [l[i] = x]; an index out of range raises. *)
Fixpoint list_assign {A : Type} (l : list A) (i : nat) (x : A) : outcome (list A) :=
  match l, i with
  | [], _ => Raised
  | _ :: t, O => Done (x :: t)
  | y :: t, S i' => t' <- list_assign t i' x ;; Done (y :: t')
  end.

Definition enumerate {A : Type} (l : list A) : list (nat * A) :=
  combine (seq 0 (length l)) l.

(** [for i, d in enumerate(list(dirnames)): ...; dirnames[i] = new_name] *)
Fixpoint dirs_loop (dirpath : list str) (fix_ : bool) (prefix_len : Z)
    (snapshot : list (nat * str)) (dirnames : list str) (st : state)
    : outcome (list str * state) :=
  match snapshot with
  | [] => Done (dirnames, st)
  | (i, d) :: rest =>
      '(new_name, st') <- visit_entry dirpath d true fix_ prefix_len st ;;
      dirnames' <- list_assign dirnames i new_name ;;
      dirs_loop dirpath fix_ prefix_len rest dirnames' st'
  end.

(** [for f in filenames: ...] *)
Fixpoint files_loop (dirpath : list str) (fix_ : bool) (prefix_len : Z)
    (filenames : list str) (st : state) : outcome state :=
  match filenames with
  | [] => Done st
  | f :: rest =>
      '(_, st') <- visit_entry dirpath f false fix_ prefix_len st ;;
      files_loop dirpath fix_ prefix_len rest st'
  end.

(** The body of the loop over [os.walk(root)] in [validate]; returns the
    list [dirnames] as the body leaves it. *)
Definition validate_body (fix_ : bool) (prefix_len : Z)
    (dirpath dirnames filenames : list str) (st : state)
    : outcome (list str * state) :=
  '(dirnames', st1) <- dirs_loop dirpath fix_ prefix_len (enumerate dirnames) dirnames st ;;
  st2 <- files_loop dirpath fix_ prefix_len filenames st1 ;;
  Done (dirnames', st2).

Definition dir_names (d : listing) : list str :=
  map fst (filter (fun e => is_dir_node (snd e)) d).

Definition file_names (d : listing) : list str :=
  map fst (filter (fun e => negb (is_dir_node (snd e))) d).

(** What [os.walk] does after the body has run for [top]: it goes into
    [top/dirname] for each name the list holds by then.  A name that is
    no directory at that moment makes the listing fail, an error
    [os.walk] ignores.  The world given to [walk_dir] holds the entries
    of the subdirectory; what [walk_dir] leaves is put back under
    [dirname]. *)
Fixpoint descend (walk_dir : list str -> state -> outcome state)
    (top dirs : list str) (st : state) : outcome state :=
  match dirs with
  | [] => Done st
  | dirname :: rest =>
      let '(w, t) := st in
      match lookup dirname (entries w) with
      | Some (Dir i sub) =>
          '(w', t') <- walk_dir (top ++ [dirname])
                         (mk_world sub (calls w) (permits w), t) ;;
          descend walk_dir top rest
            (mk_world (replace_node dirname (Dir i (entries w')) (entries w))
                      (calls w') (permits w), t')
      | _ => descend walk_dir top rest st
      end
  end.

(** [for dirpath, dirnames, filenames in os.walk(top): body], top-down:
    the directory is listed, the body runs on the names of its
    subdirectories and of its other entries, then the walk descends.
    [fuel] bounds the depth. *)
Fixpoint os_walk (fuel : nat)
    (body : list str -> list str -> list str -> state -> outcome (list str * state))
    (top : list str) (st : state) : outcome state :=
  match fuel with
  | O => OutOfFuel
  | S fuel' =>
      let dirs := dir_names (entries (fst st)) in
      let nondirs := file_names (entries (fst st)) in
      '(dirs', st') <- body top dirs nondirs st ;;
      descend (os_walk fuel' body) top dirs' st'
  end.

(** [validate(root, fix, prefix_len)], [root] being given by its entries
    and run under the operating system [os].  Returns the exit status,
    and the world and accumulators at the end. *)
Definition validate (fuel : nat) (os : policy) (root : listing) (fix_ : bool)
    (prefix_len : Z) : outcome (Z * world * totals) :=
  let errors := 0 in
  let warnings := 0 in
  let renames := 0 in
  '(w, t) <- os_walk fuel (validate_body fix_ prefix_len) []
               (mk_world root [] os, mk_totals errors warnings renames []) ;;
  Done (if 0 <? t_errors t then 1 else 0, w, t).

(** ** Trees *)

Fixpoint height (n : node) : nat :=
  match n with
  | File _ => 0
  | Dir _ ch => S (list_max (map (fun e => height (snd e)) ch))
  end.

(** The fuel a walk of the listing [d] needs. *)
Definition depth (d : listing) : nat :=
  S (list_max (map (fun e => height (snd e)) d)).

(** The identities below a node, the node included. *)
Fixpoint inos (n : node) : list nat :=
  match n with
  | File i => [i]
  | Dir i ch => i :: flat_map (fun e => inos (snd e)) ch
  end.

Definition all_inos (d : listing) : list nat :=
  flat_map (fun e => inos (snd e)) d.

Fixpoint distinct (names : list str) : bool :=
  match names with
  | [] => true
  | n :: t => negb (str_in n t) && distinct t
  end.

(** No directory holds two entries of the same name. *)
Fixpoint names_distinct (n : node) : bool :=
  match n with
  | File _ => true
  | Dir _ ch => distinct (map fst ch) && forallb (fun e => names_distinct (snd e)) ch
  end.

Definition well_formed (d : listing) : bool :=
  distinct (map fst d) && forallb (fun e => names_distinct (snd e)) d.

(** The order in which a walk meets the entries of a listing: its
    subdirectories, its other entries, then the content of each
    subdirectory. *)
Fixpoint walk_order_node (n : node) : list nat :=
  match n with
  | File _ => []
  | Dir _ ch =>
      map (fun e => ino_of (snd e)) (filter (fun e => is_dir_node (snd e)) ch)
      ++ map (fun e => ino_of (snd e)) (filter (fun e => negb (is_dir_node (snd e))) ch)
      ++ flat_map (fun e => walk_order_node (snd e)) ch
  end.

Definition walk_order (d : listing) : list nat := walk_order_node (Dir 0 d).

(** ** Vocabulary of the statements *)

Definition is_nil {A : Type} (l : list A) : bool :=
  match l with
  | [] => true
  | _ => false
  end.

(** A character the character loop of the sanitizer keeps as it is. *)
Definition clean_char (c : char) : bool :=
  negb (is_control c) && negb (is_zero_width_or_rtl c)
  && negb (char_in c FORBIDDEN_CHARS) && negb (char_in c PROBLEMATIC_CHARS).

Definition clean (name : str) : Prop := Forall (fun c => clean_char c = true) name.

(** The checks on the characters of a name that count as errors find
    nothing. *)
Definition no_bad_chars (name : str) : bool :=
  is_nil (has_forbidden_chars name) && is_nil (has_control_chars name)
  && is_nil (has_zero_width_or_rtl name).

(** The forbidden-character, control-character, zero-width, reserved-name
    and trailing space or period checks find nothing. *)
Definition no_violation (name : str) : bool :=
  no_bad_chars name
  && negb (is_reserved_name name)
  && negb (endswith name 32%N || endswith name 46%N).

(** No check of the rule engine on the name itself fires, warnings and
    the length of the name included. *)
Definition compliant (name : str) : bool :=
  no_violation name
  && is_nil (has_problematic_chars name)
  && negb (startswith name 126%N)
  && (len name <=? MAX_NAME_LEN).

(** The extension [os.path.splitext] gives. *)
Definition extension (name : str) : str := snd (splitext name).

(** The flag [rename_needed] as the checks on the name decide it. *)
Definition name_error (basename : str) : bool :=
  (MAX_NAME_LEN <? len basename)
  || negb (is_nil (has_forbidden_chars basename))
  || (endswith basename 32%N || endswith basename 46%N)
  || is_reserved_name basename
  || negb (is_nil (has_control_chars basename))
  || negb (is_nil (has_zero_width_or_rtl basename)).

Definition fix_escalated (basename : str) : bool :=
  negb (is_nil (has_problematic_chars basename)) || startswith basename 126%N.

(** Names of 256 characters for the examples: one with a space where
    the shortening cuts, one that shortens to a reserved name, one whose
    extension has 255 characters, one whose root starts with a period. *)
Definition long_name_space : str := repeat 97%N 254 ++ py " b".
Definition long_name_reserved : str := py "CONx." ++ repeat 121%N 251.
Definition long_name_ext : str := py "a." ++ repeat 121%N 254.
Definition long_name_dots : str := py ".a." ++ repeat 121%N 253.

(** A name of 304 characters with a short extension. *)
Definition long_name_txt : str := repeat 97%N 300 ++ py ".txt".

(** A name of 255 characters that is reserved and that the sanitizer
    gives back as it is. *)
Definition reserved_fixed_name : str := py "CON." ++ repeat 121%N 251.

(** The candidate [get_unique_name] tries with the counter at [k]. *)
Definition numbered (desired : str) (k : nat) : str :=
  let '(root, ext) := splitext desired in
  root ++ py "_" ++ str_of_nat k ++ ext.

(** The names [get_unique_name] can return for [desired] in a directory
    of [size] entries. *)
Definition candidates (size : nat) (desired : str) : list str :=
  desired :: map (numbered desired) (seq 1 (S size)).

(** In a directory of [size] entries a visit of [name] asks for no
    rename, or only for one to a name of at most [limit] characters. *)
Definition fits (fix_ : bool) (limit : Z) (size : nat) (name : str) : bool :=
  negb (fix_ && (name_error name || fix_escalated name))
  || forallb (fun c => len c <=? limit) (candidates size (make_safe_name name)).

(** That holds of every entry of the tree. *)
Fixpoint roomy_node (fix_ : bool) (limit : Z) (n : node) : bool :=
  match n with
  | File _ => true
  | Dir _ ch =>
      forallb (fun e => fits fix_ limit (length ch) (fst e)
                        && roomy_node fix_ limit (snd e)) ch
  end.

Definition roomy (fix_ : bool) (limit : Z) (d : listing) : bool :=
  forallb (fun e => fits fix_ limit (length d) (fst e)
                    && roomy_node fix_ limit (snd e)) d.

(** In fix mode the operating system lets through every rename to a
    name of at most [limit] characters. *)
Definition lenient (fix_ : bool) (limit : Z) (os : policy) : Prop :=
  fix_ = true -> forall dirpath src dst, len dst <= limit -> os dirpath src dst = true.

(** An operating system that refuses a rename only when the new name has
    more than [n] characters. *)
Definition name_limit (n : Z) : policy := fun _ _ dst => len dst <=? n.

(** Two names of 255 characters that collide once sanitized, and the
    directory that holds the two. *)
Definition long_sibling_hash : str := py "a#" ++ repeat 98%N 253.
Definition long_sibling_plain : str := py "a_" ++ repeat 98%N 253.

Definition long_siblings : listing :=
  [ (long_sibling_hash, File 1); (long_sibling_plain, File 2) ].

(** A small tree for the examples: two files whose names collide once
    sanitized, and a directory to rename with a subdirectory in it. *)
Definition sample_tree : listing :=
  [ (py "My File#1.txt", File 1);
    (py "My File_1.txt", File 2);
    (py "~backup",
      Dir 3 [ (py "CON.txt", File 4);
              (py "a#", Dir 5 [ (py "x ", File 6) ]) ]) ].

(** Between two states of a run: the world is the same, no rename was
    counted, and the visits made in between renamed nothing. *)
Definition untouched (a b : state) : Prop :=
  fst b = fst a
  /\ t_renames (snd b) = t_renames (snd a)
  /\ exists vs, t_visits (snd b) = t_visits (snd a) ++ vs
       /\ Forall (fun v => v_renamed v = false /\ v_new_name v = v_name v) vs.

(** Between two states of a run: the count of errors did not go down,
    and it went up if a visit in between met a path that is too long. *)
Definition counted (a b : state) : Prop :=
  t_errors (snd a) <= t_errors (snd b)
  /\ exists vs, t_visits (snd b) = t_visits (snd a) ++ vs
       /\ forall v, In v vs -> MAX_PATH_LEN < v_len v ->
            t_errors (snd a) < t_errors (snd b).

(** What a rename of [a] to [b] makes of a name. *)
Definition subst_name (a b n : str) : str := if str_eqb n a then b else n.

(** The identities a walk finds under the names [names] of [d]. *)
Definition seen (d : listing) (names : list str) : list (option nat) :=
  map (fun n => option_map ino_of (lookup n d)) names.

(** The identities a walk finds below what a name shows. *)
Definition below (x : option node) : list (option nat) :=
  match x with
  | Some n => map Some (walk_order_node n)
  | None => []
  end.

(** A tree without its names: the identities and how they nest. *)
Inductive shape : Type :=
| SFile (ino : nat)
| SDir (ino : nat) (children : list shape).

Fixpoint shape_of (n : node) : shape :=
  match n with
  | File i => SFile i
  | Dir i ch => SDir i (map (fun e => shape_of (snd e)) ch)
  end.

Definition shapes (d : listing) : list shape :=
  map (fun e => shape_of (snd e)) d.

(** Between two states of a run: the directory holds the same nodes in
    the same places, and its names are still distinct if they were. *)
Definition kept (a b : state) : Prop :=
  shapes (entries (fst b)) = shapes (entries (fst a))
  /\ (well_formed (entries (fst a)) = true ->
      well_formed (entries (fst b)) = true).

Definition sum_of (f : visit -> Z) (vs : list visit) : Z :=
  fold_right (fun v acc => f v + acc) 0 vs.

(** Between two states of a run: the accumulators grew by what the
    visits in between reported, and one rename was issued for each visit
    that reports one. *)
Definition tallied (a b : state) : Prop :=
  exists vs cs,
    t_visits (snd b) = t_visits (snd a) ++ vs
    /\ calls (fst b) = calls (fst a) ++ cs
    /\ t_errors (snd b) = t_errors (snd a) + sum_of v_errors vs
    /\ t_warnings (snd b) = t_warnings (snd a) + sum_of v_warnings vs
    /\ t_renames (snd b) = t_renames (snd a) + Z.of_nat (length cs)
    /\ length cs = length (filter v_renamed vs)
    /\ Forall (fun v => 0 <= v_errors v) vs.

(** Between two states of a run: each visit in between reports a rename
    exactly when the name it returns is not the name it was given. *)
Definition faithful (a b : state) : Prop :=
  exists vs,
    t_visits (snd b) = t_visits (snd a) ++ vs
    /\ Forall (fun v => v_renamed v = negb (str_eqb (v_new_name v) (v_name v))) vs.

(** No name of the tree holds a character the sanitizer would remove or
    replace. *)
Definition clean_name (name : str) : bool := forallb clean_char name.

Fixpoint node_clean (n : node) : bool :=
  match n with
  | File _ => true
  | Dir _ ch => forallb (fun e => clean_name (fst e) && node_clean (snd e)) ch
  end.

Definition tree_clean (d : listing) : bool :=
  forallb (fun e => clean_name (fst e) && node_clean (snd e)) d.

(** ** Strings *)

Lemma str_eqb_eq (a b : str) : str_eqb a b = true <-> a = b.
Proof.
  revert b; induction a as [|x a IH]; intros [|y b]; simpl; split;
    try discriminate; try reflexivity.
  - intros H; apply andb_true_iff in H as [Hx Hab].
    apply N.eqb_eq in Hx; apply IH in Hab; congruence.
  - intros H; inversion H; subst.
    rewrite N.eqb_refl; simpl; apply IH; reflexivity.
Qed.

Lemma str_eqb_refl (a : str) : str_eqb a a = true.
Proof. apply str_eqb_eq; reflexivity. Qed.

Lemma str_eqb_neq (a b : str) : str_eqb a b = false <-> a <> b.
Proof.
  split.
  - intros H E; apply str_eqb_eq in E; congruence.
  - intros H; destruct (str_eqb a b) eqn:E; [|reflexivity].
    apply str_eqb_eq in E; contradiction.
Qed.

Lemma str_eqb_sym (a b : str) : str_eqb a b = str_eqb b a.
Proof.
  destruct (str_eqb b a) eqn:E.
  - apply str_eqb_eq in E; subst; apply str_eqb_refl.
  - apply str_eqb_neq; apply str_eqb_neq in E; congruence.
Qed.

Lemma str_in_In (x : str) (l : list str) : str_in x l = true <-> In x l.
Proof.
  unfold str_in; rewrite existsb_exists; split.
  - intros (y & Hy & E); apply str_eqb_eq in E; subst; assumption.
  - intros H; exists x; split; [assumption | apply str_eqb_refl].
Qed.

Lemma str_in_not_In (x : str) (l : list str) : str_in x l = false <-> ~ In x l.
Proof.
  rewrite <- str_in_In; destruct (str_in x l); split; congruence.
Qed.

Lemma len_app (a b : str) : len (a ++ b) = len a + len b.
Proof. unfold len; rewrite length_app; lia. Qed.

Lemma len_nonneg (a : str) : 0 <= len a.
Proof. unfold len; lia. Qed.

Lemma insert_uniq_not_nil (c : char) (l : list char) : insert_uniq c l <> [].
Proof.
  destruct l as [|x t]; simpl; [discriminate|].
  destruct (N.ltb c x); [discriminate|].
  destruct (N.eqb c x); discriminate.
Qed.

Lemma sorted_set_nil (l : list char) : sorted_set l = [] <-> l = [].
Proof.
  split; intros H; [|subst; reflexivity].
  destruct l as [|c t]; [reflexivity|].
  simpl in H; apply insert_uniq_not_nil in H; contradiction.
Qed.

Lemma filter_nil {A : Type} (f : A -> bool) (l : list A) :
  filter f l = [] <-> Forall (fun c => f c = false) l.
Proof.
  induction l as [|c t IH]; simpl.
  - split; [constructor | reflexivity].
  - destruct (f c) eqn:E; split; intros H.
    + discriminate.
    + inversion H; congruence.
    + constructor; [assumption | apply IH; assumption].
    + apply IH; inversion H; assumption.
Qed.

Lemma is_nil_true {A : Type} (l : list A) : is_nil l = true <-> l = [].
Proof. destruct l; simpl; split; congruence. Qed.

(** A check that collects the offending characters finds nothing exactly
    when no character offends. *)
Lemma found_nothing (f : char -> bool) (name : str) :
  is_nil (sorted_set (filter f name)) = true <-> Forall (fun c => f c = false) name.
Proof. rewrite is_nil_true, sorted_set_nil; apply filter_nil. Qed.

Lemma Forall_firstn {A : Type} (P : A -> Prop) (n : nat) (l : list A) :
  Forall P l -> Forall P (firstn n l).
Proof.
  intros H; rewrite <- (firstn_skipn n l) in H.
  apply Forall_app in H; tauto.
Qed.

Lemma Forall_skipn {A : Type} (P : A -> Prop) (n : nat) (l : list A) :
  Forall P l -> Forall P (skipn n l).
Proof.
  intros H; rewrite <- (firstn_skipn n l) in H.
  apply Forall_app in H; tauto.
Qed.

Lemma endswith_last (a : str) (x c : char) : endswith (a ++ [x]) c = N.eqb x c.
Proof. unfold endswith; rewrite rev_app_distr; reflexivity. Qed.

Lemma endswith_app (a b : str) (c : char) :
  b <> [] -> endswith (a ++ b) c = endswith b c.
Proof.
  intros Hb; destruct (exists_last Hb) as (b' & x & ->).
  rewrite app_assoc, !endswith_last; reflexivity.
Qed.

Lemma endswith_cons (x : char) (t : str) (c : char) :
  t <> [] -> endswith (x :: t) c = endswith t c.
Proof. intros Ht; apply (endswith_app [x] t c Ht). Qed.

Lemma rstrip_Forall (P : char -> Prop) (cs : list char) (s : str) :
  Forall P s -> Forall P (rstrip cs s).
Proof.
  induction 1 as [|c t Hc Ht IH]; simpl; [constructor|].
  destruct (rstrip cs t) as [|y t'].
  - destruct (char_in c cs); repeat constructor; assumption.
  - constructor; assumption.
Qed.

(** What [rstrip] leaves is empty or ends with a character that is not
    stripped. *)
Lemma rstrip_end (cs : list char) (s : str) :
  rstrip cs s = [] \/ exists a x, rstrip cs s = a ++ [x] /\ char_in x cs = false.
Proof.
  induction s as [|c t IH]; simpl; [left; reflexivity|].
  destruct IH as [-> | (a & x & -> & Hx)].
  - destruct (char_in c cs) eqn:E; [left; reflexivity|].
    right; exists [], c; split; [reflexivity | assumption].
  - right; exists (c :: a), x; split; [|assumption].
    destruct a; reflexivity.
Qed.

Lemma rstrip_fixed (cs : list char) (a : str) (x : char) :
  char_in x cs = false -> rstrip cs (a ++ [x]) = a ++ [x].
Proof.
  intros Hx; induction a as [|c a IH]; simpl.
  - rewrite Hx; reflexivity.
  - rewrite IH; destruct a; reflexivity.
Qed.

Lemma split_head_Forall (P : char -> Prop) (c : char) (s : str) :
  Forall P s -> Forall P (split_head c s).
Proof.
  induction 1 as [|x t Hx Ht IH]; simpl; [constructor|].
  destruct (N.eqb x c); constructor; assumption.
Qed.

Lemma split_head_rest (c : char) (s : str) :
  split_head c s ++ skipn (length (split_head c s)) s = s.
Proof.
  induction s as [|x t IH]; simpl; [reflexivity|].
  destruct (N.eqb x c); simpl; [reflexivity | rewrite IH; reflexivity].
Qed.

(** The rest after the part before the first [c] is empty or starts
    with [c]. *)
Lemma split_head_next (c : char) (s : str) :
  skipn (length (split_head c s)) s = []
  \/ exists r, skipn (length (split_head c s)) s = c :: r.
Proof.
  induction s as [|x t IH]; simpl; [left; reflexivity|].
  destruct (N.eqb x c) eqn:E; simpl; [|assumption].
  apply N.eqb_eq in E; subst; right; exists t; reflexivity.
Qed.

Lemma split_head_app (c : char) (a b : str) :
  Forall (fun x => N.eqb x c = false) a ->
  split_head c (a ++ b) = a ++ split_head c b.
Proof.
  induction 1 as [|x t Hx Ht IH]; simpl; [reflexivity|].
  rewrite Hx, IH; reflexivity.
Qed.

Lemma split_head_free (c : char) (s : str) :
  Forall (fun x => N.eqb x c = false) (split_head c s).
Proof.
  induction s as [|x t IH]; simpl; [constructor|].
  destruct (N.eqb x c) eqn:E; constructor; assumption.
Qed.

Lemma from_char_len (a : str) (s : str) : from_char (len a) s = skipn (length a) s.
Proof. unfold from_char, len; rewrite Nat2Z.id; reflexivity. Qed.

Lemma upper_app (a b : str) : upper (a ++ b) = upper a ++ upper b.
Proof. unfold upper; apply flat_map_app. Qed.

Lemma splitext_app (p root ext : str) : splitext p = (root, ext) -> root ++ ext = p.
Proof.
  unfold splitext, first_chars, from_char; intros H.
  destruct (rfind 47%N p <? rfind 46%N p).
  - destruct (forallb _ _); inversion H; subst;
      [apply app_nil_r | apply firstn_skipn].
  - inversion H; subst; apply app_nil_r.
Qed.

(** The models of the library functions on examples of the Python
    documentation and of the interpreter. *)
Example splitext_examples :
  splitext (py "bar") = (py "bar", [])
  /\ splitext (py "foo.bar.exe") = (py "foo.bar", py ".exe")
  /\ splitext (py ".cshrc") = (py ".cshrc", [])
  /\ splitext (py "/foo/....jpg") = (py "/foo/....jpg", [])
  /\ splitext (py "a/b.c/d") = (py "a/b.c/d", [])
  /\ splitext (py "a.") = (py "a", py ".").
Proof. repeat split; vm_compute; reflexivity. Qed.

Example string_method_examples :
  rstrip (py " .") (py "a . b. . ") = py "a . b"
  /\ rstrip (py " .") (py " ..") = []
  /\ split_head 46%N (py "a.b.c") = py "a"
  /\ split_head 46%N (py ".a") = []
  /\ split_head 46%N (py "abc") = py "abc"
  /\ upper (py "Com1_x") = py "COM1_X"
  /\ rfind 46%N (py "a.b.c") = 3
  /\ rfind 46%N (py "abc") = -1
  /\ last_chars 2 (py "abcde") = py "de"
  /\ str_of_nat 120 = py "120"
  /\ sorted_set (py "b?a?b") = py "?ab".
Proof. repeat split; vm_compute; reflexivity. Qed.

(** ** Sanitizer *)

Section Sanitizer.

Local Arguments char_in : simpl never.

Lemma safe_chars_clean (s : str) : clean (safe_chars s).
Proof.
  unfold clean; induction s as [|c t IH]; simpl; [constructor|].
  destruct (is_control c) eqn:E1; [assumption|].
  destruct (is_zero_width_or_rtl c) eqn:E2; [assumption|].
  destruct (char_in c FORBIDDEN_CHARS || char_in c PROBLEMATIC_CHARS) eqn:E3;
    constructor; try assumption; [reflexivity|].
  apply orb_false_iff in E3 as [E3 E4].
  unfold clean_char; rewrite E1, E2, E3, E4; reflexivity.
Qed.

Lemma safe_chars_fixed (s : str) : clean s -> safe_chars s = s.
Proof.
  unfold clean; induction 1 as [|c t Hc Ht IH]; simpl; [reflexivity|].
  unfold clean_char in Hc.
  destruct (is_control c); [discriminate|].
  destruct (is_zero_width_or_rtl c); [discriminate|].
  destruct (char_in c FORBIDDEN_CHARS); [discriminate|].
  destruct (char_in c PROBLEMATIC_CHARS); [discriminate|].
  simpl; rewrite IH; reflexivity.
Qed.

Lemma safe_name_unbounded_eq (s : str) :
  safe_name_unbounded s =
    let base := split_head 46%N (stripped_name s) in
    if str_in (upper base) RESERVED_NAMES
    then base ++ py "__" ++ skipn (length base) (stripped_name s)
    else stripped_name s.
Proof.
  unfold safe_name_unbounded; cbv zeta.
  rewrite from_char_len; reflexivity.
Qed.

Lemma stripped_name_clean (s : str) : clean (stripped_name s).
Proof.
  unfold stripped_name; cbv zeta.
  set (n1 := if startswith _ _ then _ else _).
  assert (H1 : clean n1).
  { subst n1; destruct (startswith _ _).
    - constructor; [reflexivity|].
      apply Forall_skipn, safe_chars_clean.
    - apply safe_chars_clean. }
  apply (rstrip_Forall _ (py " .")) in H1.
  destruct (rstrip _ n1); [repeat constructor | assumption].
Qed.

(** The stripped name is not empty and ends with neither a space nor a
    period. *)
Lemma stripped_name_end (s : str) :
  exists a x, stripped_name s = a ++ [x] /\ char_in x (py " .") = false.
Proof.
  unfold stripped_name; cbv zeta.
  set (n1 := if startswith _ _ then _ else _).
  destruct (rstrip_end (py " .") n1) as [-> | (a & x & E & Hx)].
  - exists [], 95%N; split; reflexivity.
  - exists a, x; split; [|assumption].
    rewrite E; destruct a; reflexivity.
Qed.

Lemma stripped_name_no_tilde (s : str) : startswith (stripped_name s) 126%N = false.
Proof.
  unfold stripped_name; cbv zeta.
  set (n0 := safe_chars s).
  set (n1 := if startswith _ _ then _ else _).
  assert (H1 : startswith n1 126%N = false).
  { subst n1; destruct (startswith n0 126%N) eqn:E; [reflexivity | assumption]. }
  destruct n1 as [|c t]; [reflexivity|].
  cbn [rstrip startswith] in *.
  destruct (rstrip (py " .") t) as [|y t'].
  - destruct (char_in c (py " .")); [reflexivity | assumption].
  - assumption.
Qed.

Lemma safe_name_unbounded_clean (s : str) : clean (safe_name_unbounded s).
Proof.
  rewrite safe_name_unbounded_eq; cbv zeta.
  pose proof (stripped_name_clean s) as H.
  destruct (str_in _ _); [|assumption].
  apply Forall_app; split; [apply split_head_Forall; assumption|].
  apply Forall_app; split; [repeat constructor|].
  apply Forall_skipn; assumption.
Qed.

Lemma limit_name_len_Forall (P : char -> Prop) (n : str) :
  Forall P n -> Forall P (limit_name_len n).
Proof.
  intros H; unfold limit_name_len.
  destruct (MAX_NAME_LEN <? len n); [|assumption].
  destruct (splitext n) as [root ext] eqn:E.
  destruct (_ <=? 0).
  - apply Forall_skipn; assumption.
  - apply splitext_app in E; rewrite <- E in H.
    apply Forall_app in H as [Hr He].
    apply Forall_app; split; [apply Forall_firstn|]; assumption.
Qed.

Lemma make_safe_name_clean (s : str) : clean (make_safe_name s).
Proof. apply limit_name_len_Forall, safe_name_unbounded_clean. Qed.

Lemma limit_name_len_short (n : str) :
  len n <= MAX_NAME_LEN -> limit_name_len n = n.
Proof.
  intros H; unfold limit_name_len.
  destruct (MAX_NAME_LEN <? len n) eqn:E; [|reflexivity].
  apply Z.ltb_lt in E; lia.
Qed.

Lemma clean_no_bad_chars (n : str) : clean n -> no_bad_chars n = true.
Proof.
  intros H; unfold no_bad_chars, has_forbidden_chars, has_control_chars,
    has_zero_width_or_rtl.
  rewrite !andb_true_iff; repeat split; apply found_nothing;
    (eapply Forall_impl; [|exact H]); cbv beta; intros c Hc;
    unfold clean_char in Hc;
    destruct (is_control c), (is_zero_width_or_rtl c),
      (char_in c FORBIDDEN_CHARS); try discriminate; reflexivity.
Qed.

Lemma clean_no_problematic (n : str) :
  clean n -> is_nil (has_problematic_chars n) = true.
Proof.
  intros H; apply found_nothing.
  eapply Forall_impl; [|exact H]; cbv beta; intros c Hc.
  unfold clean_char in Hc.
  destruct (char_in c PROBLEMATIC_CHARS); [|reflexivity].
  rewrite !andb_false_r in Hc; discriminate.
Qed.

Lemma no_bad_chars_clean (n : str) :
  no_bad_chars n = true -> is_nil (has_problematic_chars n) = true -> clean n.
Proof.
  unfold no_bad_chars, has_forbidden_chars, has_control_chars,
    has_zero_width_or_rtl, has_problematic_chars.
  rewrite !andb_true_iff, !found_nothing; intros ((H1 & H2) & H3) H4.
  unfold clean; rewrite Forall_forall in *; intros c Hc; unfold clean_char.
  rewrite (H1 c Hc), (H2 c Hc), (H3 c Hc), (H4 c Hc); reflexivity.
Qed.

(** No reserved name ends with an underscore. *)
Lemma reserved_last : Forall (fun r => last r 0%N <> 95%N) RESERVED_NAMES.
Proof. repeat constructor; discriminate. Qed.

Lemma escaped_not_reserved (x : str) : str_in (x ++ py "__") RESERVED_NAMES = false.
Proof.
  apply str_in_not_In; intros H.
  pose proof reserved_last as L; rewrite Forall_forall in L.
  apply (L _ H).
  change (py "__") with ([95%N] ++ [95%N]).
  rewrite app_assoc, last_last; reflexivity.
Qed.

Lemma safe_name_unbounded_not_reserved (s : str) :
  is_reserved_name (safe_name_unbounded s) = false.
Proof.
  unfold is_reserved_name; cbv zeta.
  rewrite safe_name_unbounded_eq; cbv zeta.
  set (n := stripped_name s).
  destruct (str_in (upper (split_head 46%N n)) RESERVED_NAMES) eqn:E;
    [|assumption].
  rewrite split_head_app by apply split_head_free.
  rewrite split_head_app by (repeat constructor).
  destruct (split_head_next 46%N n) as [-> | (r & ->)]; simpl split_head;
    rewrite ?N.eqb_refl, app_nil_r, upper_app; apply escaped_not_reserved.
Qed.

Lemma safe_name_unbounded_end (s : str) :
  exists a x, safe_name_unbounded s = a ++ [x] /\ char_in x (py " .") = false.
Proof.
  rewrite safe_name_unbounded_eq; cbv zeta.
  destruct (stripped_name_end s) as (a & x & E & Hx).
  set (n := stripped_name s) in *.
  destruct (str_in _ _); [|exists a, x; split; assumption].
  destruct (skipn (length (split_head 46%N n)) n) as [|y r] eqn:Er.
  - exists (split_head 46%N n ++ [95%N]), 95%N; split; [|reflexivity].
    rewrite <- app_assoc; reflexivity.
  - pose proof (split_head_rest 46%N n) as Hn; rewrite Er, E in Hn.
    assert (Hr : y :: r <> []) by discriminate.
    destruct (exists_last Hr) as (r' & z & Ez); rewrite Ez in *.
    rewrite app_assoc in Hn; apply app_inj_tail in Hn as [_ ->].
    exists (split_head 46%N n ++ py "__" ++ r'), x; split; [|assumption].
    rewrite <- !app_assoc; reflexivity.
Qed.

Lemma safe_name_unbounded_no_tilde (s : str) :
  startswith (safe_name_unbounded s) 126%N = false.
Proof.
  rewrite safe_name_unbounded_eq; cbv zeta.
  pose proof (stripped_name_no_tilde s) as H.
  set (n := stripped_name s) in *.
  destruct (str_in _ _) eqn:E; [|assumption].
  destruct n as [|c t]; [discriminate E|].
  simpl in *; destruct (N.eqb c 46%N); [discriminate E | assumption].
Qed.

Lemma char_in_space_dot (x : char) :
  char_in x (py " .") = false -> N.eqb x 32%N = false /\ N.eqb x 46%N = false.
Proof.
  unfold char_in; simpl; rewrite !orb_false_iff; intros (H1 & H2 & _).
  split; assumption.
Qed.

(** Before the length is bounded the name passes every check of the rule
    engine on names but the one on its length. *)
Lemma safe_name_unbounded_no_violation (s : str) :
  no_violation (safe_name_unbounded s) = true
  /\ is_nil (has_problematic_chars (safe_name_unbounded s)) = true
  /\ startswith (safe_name_unbounded s) 126%N = false.
Proof.
  pose proof (safe_name_unbounded_clean s) as Hc.
  split; [|split; [apply clean_no_problematic; assumption
                  | apply safe_name_unbounded_no_tilde]].
  unfold no_violation.
  rewrite (clean_no_bad_chars _ Hc), safe_name_unbounded_not_reserved.
  destruct (safe_name_unbounded_end s) as (a & x & -> & Hx).
  rewrite !endswith_last.
  apply char_in_space_dot in Hx as [-> ->]; reflexivity.
Qed.

Lemma safe_name_unbounded_fixed (s : str) :
  s <> [] -> compliant s = true -> safe_name_unbounded s = s.
Proof.
  intros Hne H; unfold compliant, no_violation in H.
  rewrite !andb_true_iff, !negb_true_iff, orb_false_iff in H.
  destruct H as (((((Hbad & Hres) & He1 & He2) & Hprob) & Ht) & Hlen).
  pose proof (no_bad_chars_clean _ Hbad Hprob) as Hc.
  assert (Hs : stripped_name s = s).
  { unfold stripped_name; cbv zeta.
    rewrite (safe_chars_fixed _ Hc), Ht.
    destruct (exists_last Hne) as (a & x & ->).
    rewrite endswith_last in He1, He2.
    rewrite rstrip_fixed by (unfold char_in; simpl; rewrite He1, He2; reflexivity).
    destruct a; reflexivity. }
  rewrite safe_name_unbounded_eq; cbv zeta; rewrite Hs.
  unfold is_reserved_name in Hres; cbv zeta in Hres; rewrite Hres; reflexivity.
Qed.

End Sanitizer.

(** ** Length of the sanitized name *)

Lemma safe_name_unbounded_not_nil (s : str) : safe_name_unbounded s <> [].
Proof.
  destruct (safe_name_unbounded_end s) as (a & x & -> & _).
  destruct a; discriminate.
Qed.

(** A name that is shortened comes out with exactly the greatest length
    allowed. *)
Lemma limit_name_len_long (n : str) :
  MAX_NAME_LEN < len n -> len (limit_name_len n) = MAX_NAME_LEN.
Proof.
  intros H; unfold limit_name_len.
  apply Z.ltb_lt in H as H'; rewrite H'; clear H'.
  destruct (splitext n) as [root ext] eqn:E.
  apply splitext_app in E; subst n.
  rewrite len_app in H.
  destruct (MAX_NAME_LEN - len ext <=? 0) eqn:Ea.
  - unfold last_chars, len in *; rewrite length_skipn, length_app in *.
    unfold MAX_NAME_LEN in *; lia.
  - apply Z.leb_gt in Ea.
    unfold first_chars; rewrite len_app; unfold len in *.
    rewrite length_firstn; unfold MAX_NAME_LEN in *; lia.
Qed.

Lemma limit_name_len_bound (n : str) : len (limit_name_len n) <= MAX_NAME_LEN.
Proof.
  destruct (Z_lt_le_dec MAX_NAME_LEN (len n)) as [H | H].
  - rewrite limit_name_len_long by assumption; lia.
  - rewrite limit_name_len_short by assumption; assumption.
Qed.

(** The steps before the length limit add at most two characters to a
    name, and one to the empty name. *)
Lemma safe_chars_len (s : str) : (length (safe_chars s) <= length s)%nat.
Proof.
  induction s as [|c t IH]; simpl; [lia|].
  destruct (is_control c); [lia|].
  destruct (is_zero_width_or_rtl c); [lia|].
  destruct (_ || _); simpl; lia.
Qed.

Lemma rstrip_len (cs : list char) (s : str) : (length (rstrip cs s) <= length s)%nat.
Proof.
  induction s as [|c t IH]; simpl; [lia|].
  destruct (rstrip cs t); [destruct (char_in c cs)|]; simpl in *; lia.
Qed.

Lemma stripped_name_len (s : str) :
  (length (stripped_name s) <= Nat.max (length s) 1)%nat.
Proof.
  unfold stripped_name; cbv zeta.
  set (n1 := if startswith _ _ then _ else _).
  assert (H1 : (length n1 <= length s)%nat).
  { subst n1; pose proof (safe_chars_len s) as H.
    unfold from_char; change (Z.to_nat 1) with 1%nat.
    destruct (safe_chars s) as [|c t]; simpl in *; [lia|].
    destruct (N.eqb c 126%N); simpl; exact H. }
  pose proof (rstrip_len (py " .") n1) as H2.
  destruct (rstrip (py " .") n1); simpl in *; unfold char in *; lia.
Qed.

Lemma safe_name_unbounded_len (s : str) :
  len (safe_name_unbounded s) <= Z.max (len s) 1 + 2.
Proof.
  rewrite safe_name_unbounded_eq; cbv zeta.
  pose proof (stripped_name_len s) as H.
  pose proof (split_head_rest 46%N (stripped_name s)) as Hr.
  apply (f_equal (@length char)) in Hr; rewrite length_app in Hr.
  destruct (str_in _ _); unfold len; rewrite ?length_app; simpl length;
    unfold str, char in *; lia.
Qed.

(** A name of at most 253 characters needs no shortening. *)
Lemma short_input_unshortened (s : str) :
  len s <= 253 -> len (safe_name_unbounded s) <= MAX_NAME_LEN.
Proof.
  intros H; pose proof (safe_name_unbounded_len s); unfold MAX_NAME_LEN; lia.
Qed.

(** Without the shortening step the sanitizer gives a name on which no
    check on names fires, and sanitizing that name again changes
    nothing. *)
Lemma make_safe_name_unshortened (s : str) :
  len (safe_name_unbounded s) <= MAX_NAME_LEN ->
  compliant (make_safe_name s) = true
  /\ make_safe_name (make_safe_name s) = make_safe_name s.
Proof.
  intros H; unfold make_safe_name at 1 3 4.
  rewrite (limit_name_len_short _ H).
  destruct (safe_name_unbounded_no_violation s) as (Hv & Hp & Ht).
  assert (Hc : compliant (safe_name_unbounded s) = true).
  { unfold compliant; rewrite Hv, Hp, Ht; simpl.
    apply Z.leb_le; assumption. }
  split; [assumption|].
  unfold make_safe_name.
  rewrite (safe_name_unbounded_fixed _ (safe_name_unbounded_not_nil s) Hc).
  apply limit_name_len_short; assumption.
Qed.

(** ** The extension of a name *)

Lemma rfind_from_absent (c : char) (s : str) (i last : Z) :
  Forall (fun x => N.eqb x c = false) s -> rfind_from c s i last = last.
Proof.
  intros H; revert i last; induction H as [|x t Hx Ht IH]; intros i last;
    simpl; [reflexivity|].
  rewrite Hx; apply IH.
Qed.

Lemma rfind_from_app (c : char) (a b : str) (i last : Z) :
  rfind_from c (a ++ b) i last
    = rfind_from c b (i + len a) (rfind_from c a i last).
Proof.
  revert i last; induction a as [|x a IH]; intros i last; simpl.
  - unfold len; simpl; rewrite Z.add_0_r; reflexivity.
  - rewrite IH; f_equal; unfold len; simpl length; lia.
Qed.

Lemma rfind_absent (c : char) (s : str) :
  Forall (fun x => N.eqb x c = false) s -> rfind c s = -1.
Proof. apply rfind_from_absent. Qed.

Lemma rfind_last (c : char) (a e : str) :
  Forall (fun x => N.eqb x c = false) e -> rfind c (a ++ c :: e) = len a.
Proof.
  intros He; unfold rfind; rewrite rfind_from_app; simpl.
  rewrite N.eqb_refl, rfind_from_absent by assumption; lia.
Qed.

(** A name without a slash splits at its last period when something
    other than periods comes before it. *)
Lemma splitext_last_dot (a e : str) :
  Forall (fun x => N.eqb x 47%N = false) (a ++ 46%N :: e) ->
  Forall (fun x => N.eqb x 46%N = false) e ->
  forallb (N.eqb 46%N) a = false ->
  splitext (a ++ 46%N :: e) = (a, 46%N :: e).
Proof.
  intros Hs He Ha; unfold splitext.
  rewrite (rfind_absent _ _ Hs), (rfind_last _ _ _ He).
  pose proof (len_nonneg a) as Hl.
  replace (-1 <? len a) with true by (symmetry; apply Z.ltb_lt; lia).
  unfold first_chars, from_char; simpl (-1 + 1).
  rewrite Z.sub_0_r; unfold len; rewrite Nat2Z.id; simpl (Z.to_nat 0).
  simpl (skipn 0 _).
  rewrite firstn_app, Nat.sub_diag, firstn_all; simpl (firstn 0 _).
  rewrite app_nil_r, Ha.
  rewrite skipn_app, Nat.sub_diag, skipn_all; reflexivity.
Qed.

(** The last occurrence of a character that occurs. *)
Lemma last_occurrence (c : char) (l : str) :
  In c l ->
  exists m e, l = m ++ c :: e /\ Forall (fun x => N.eqb x c = false) e.
Proof.
  induction l as [|x t IH]; intros Hin; [contradiction|].
  destruct (existsb (N.eqb c) t) eqn:E.
  - apply existsb_exists in E as (y & Hy & Ey); apply N.eqb_eq in Ey; subst y.
    destruct (IH Hy) as (m & e & -> & He).
    exists (x :: m), e; split; [reflexivity | assumption].
  - exists [], t; destruct Hin as [-> | Hin].
    + split; [reflexivity|].
      rewrite Forall_forall; intros y Hy.
      destruct (N.eqb y c) eqn:Ey; [|reflexivity].
      apply N.eqb_eq in Ey; subst y.
      assert (existsb (N.eqb c) t = true)
        by (apply existsb_exists; exists c; split; [assumption | apply N.eqb_refl]).
      congruence.
    + assert (existsb (N.eqb c) t = true)
        by (apply existsb_exists; exists c; split; [assumption | apply N.eqb_refl]).
      congruence.
Qed.

(** ** Names of at most 255 characters *)

Lemma upper_char_not_nil (c : char) : upper_char c <> [].
Proof.
  unfold upper_char.
  repeat match goal with
         | |- context [if ?b then _ else _] => destruct b
         end; discriminate.
Qed.

Lemma upper_len (s : str) : (length s <= length (upper s))%nat.
Proof.
  induction s as [|c t IH]; simpl; [lia|].
  rewrite length_app.
  pose proof (upper_char_not_nil c) as H.
  destruct (upper_char c); [contradiction | simpl; lia].
Qed.

Lemma reserved_short : Forall (fun r => (length r <= 4)%nat) RESERVED_NAMES.
Proof. repeat (constructor; [simpl; lia|]); constructor. Qed.

Lemma underscore_end_not_reserved (x : str) :
  str_in (x ++ [95%N]) RESERVED_NAMES = false.
Proof.
  apply str_in_not_In; intros H.
  pose proof reserved_last as L; rewrite Forall_forall in L.
  apply (L _ H), last_last.
Qed.

Lemma stripped_name_fixed (q a : str) (x : char) :
  clean q -> startswith q 126%N = false ->
  q = a ++ [x] -> char_in x (py " .") = false ->
  stripped_name q = q.
Proof.
  intros Hc Ht Hq Hx; unfold stripped_name; cbv zeta.
  rewrite (safe_chars_fixed _ Hc), Ht, Hq, (rstrip_fixed _ _ _ Hx).
  destruct a; reflexivity.
Qed.

(** What the shortening makes of a name of at most 255 characters: it
    only happens after a reserved name was escaped, and it either takes
    the escape away again or leaves an underscore at the end of the part
    before the first period. *)
Lemma shortened_shape (s : str) :
  len s <= MAX_NAME_LEN ->
  MAX_NAME_LEN < len (safe_name_unbounded s) ->
  startswith (make_safe_name s) 126%N = false
  /\ (exists a x, make_safe_name s = a ++ [x] /\ char_in x (py " .") = false)
  /\ ((exists base e,
          str_in (upper base) RESERVED_NAMES = true
          /\ Forall (fun c => N.eqb c 46%N = false) base
          /\ make_safe_name s = base ++ 46%N :: e
          /\ safe_name_unbounded s = base ++ py "__" ++ 46%N :: e)
      \/ (exists b, split_head 46%N (make_safe_name s) = b ++ [95%N])).
Proof.
  intros Hs Hlong.
  pose proof (stripped_name_len s) as Hlen.
  pose proof (stripped_name_no_tilde s) as Htilde.
  pose proof (safe_name_unbounded_clean s) as Hclean.
  destruct (stripped_name_end s) as (a0 & x & Hend & Hx).
  unfold make_safe_name; rewrite safe_name_unbounded_eq in *; cbv zeta in *.
  set (n := stripped_name s) in *.
  pose proof (split_head_rest 46%N n) as Hn.
  pose proof (split_head_free 46%N n) as Hfree.
  set (base := split_head 46%N n) in *.
  unfold MAX_NAME_LEN in *.
  destruct (str_in (upper base) RESERVED_NAMES) eqn:Hres;
    [|unfold len in *; unfold str, char in *; lia].
  assert (Hb4 : (length (upper base) <= 4)%nat).
  { pose proof reserved_short as L; rewrite Forall_forall in L.
    apply L, str_in_In; assumption. }
  pose proof (upper_len base) as Hub.
  assert (Hbne : base <> []) by (intros E; rewrite E in Hres; discriminate).
  assert (Hb1 : length base <> 0%nat) by (rewrite length_zero_iff_nil; exact Hbne).
  destruct (split_head_next 46%N n) as [Hr | (r & Hr)]; fold base in Hr;
    rewrite Hr in Hn, Hlong, Hclean |- *.
  { unfold len in Hlong; rewrite !length_app in Hlong; simpl length in Hlong.
    unfold str, char in *; lia. }
  destruct (last_occurrence 46%N (46%N :: r) (or_introl eq_refl))
    as (m & e & Hme & He).
  unfold str, char in *.
  rewrite Hme in Hn, Hlong, Hclean |- *.
  assert (Hm : m = [] \/ exists m', m = 46%N :: m').
  { destruct m as [|y m']; [left; reflexivity | right].
    inversion Hme; subst; eauto. }
  assert (He' : exists e', e = e' ++ [x]).
  { destruct (exists_last (l := e)) as (e' & y & ->).
    - intros ->; rewrite Hend in Hn.
      rewrite !app_assoc in Hn; apply app_inj_tail in Hn as [_ <-].
      discriminate Hx.
    - exists e'; rewrite Hend in Hn.
      change (46%N :: e' ++ [y]) with ([46%N] ++ e' ++ [y]) in Hn.
      rewrite !app_assoc in Hn; apply app_inj_tail in Hn as [_ <-].
      reflexivity. }
  destruct He' as (e' & ->).
  assert (Hln : (length base + length m + 1 + length (e' ++ [x]) <= 255)%nat).
  { apply (f_equal (@length char)) in Hn.
    rewrite !length_app in Hn; simpl length in Hn.
    rewrite length_app in Hn; simpl length in Hn; rewrite length_app.
    unfold len in Hs; simpl length; unfold str, char in *; lia. }
  assert (Hlp : (255 < length base + 2 + length m + 1 + length (e' ++ [x]))%nat).
  { unfold len in Hlong; rewrite !length_app in Hlong; simpl length in Hlong.
    rewrite !length_app in Hlong; simpl length in Hlong.
    rewrite length_app; simpl length; unfold str, char in *; lia. }
  assert (Hsplit : splitext (base ++ py "__" ++ m ++ 46%N :: e' ++ [x])
                   = (base ++ py "__" ++ m, 46%N :: e' ++ [x])).
  { replace (base ++ py "__" ++ m ++ 46%N :: e' ++ [x])
      with ((base ++ py "__" ++ m) ++ 46%N :: e' ++ [x])
      by (rewrite <- !app_assoc; reflexivity).
    apply splitext_last_dot; [| assumption |].
    - unfold clean in Hclean; rewrite <- !app_assoc.
      eapply Forall_impl; [|exact Hclean]; cbv beta; intros c Hc.
      destruct (N.eqb c 47%N) eqn:E; [|reflexivity].
      apply N.eqb_eq in E; subst c; discriminate Hc.
    - rewrite !forallb_app; simpl; rewrite andb_false_r; reflexivity. }
  unfold limit_name_len, MAX_NAME_LEN; unfold str, char in *.
  apply Z.ltb_lt in Hlong as Hlong'; rewrite Hlong', Hsplit; clear Hlong'.
  replace (255 - len (46%N :: e' ++ [x]) <=? 0) with false.
  2: { symmetry; apply Z.leb_gt; unfold len; simpl length; unfold char; lia. }
  unfold first_chars.
  replace (Z.to_nat (255 - len (46%N :: e' ++ [x])))
    with (length base + (254 - length (e' ++ [x]) - length base))%nat
    by (unfold len; simpl length; unfold char; lia).
  rewrite firstn_app_2.
  set (j := (254 - length (e' ++ [x]) - length base)%nat).
  assert (Hj : j = length m \/ j = S (length m)) by (unfold j; lia).
  split.
  { destruct base as [|c b]; [contradiction|].
    destruct n as [|c' n']; [discriminate Hn|].
    simpl in Hn; inversion Hn; subst; exact Htilde. }
  split.
  { exists (base ++ firstn j (py "__" ++ m) ++ 46%N :: e'), x.
    split; [|assumption].
    rewrite <- !app_assoc; reflexivity. }
  destruct j as [|j].
  - left; exists base, (e' ++ [x]).
    destruct Hj as [Hj | Hj]; [|discriminate].
    destruct m; [|discriminate].
    repeat split; try assumption; simpl; rewrite ?app_nil_r; reflexivity.
  - right; exists (base ++ firstn j [95%N]).
    rewrite <- app_assoc, split_head_app by assumption.
    rewrite <- app_assoc; f_equal.
    destruct Hm as [-> | (m' & ->)]; destruct j as [|j]; simpl;
      try reflexivity.
    + destruct j; reflexivity.
    + destruct j; reflexivity.
Qed.

(** X9: sanitizing the sanitized name of a name of at most 255
    characters changes nothing. *)
Lemma make_safe_name_fixed_point_255 (s : str) :
  len s <= MAX_NAME_LEN ->
  make_safe_name (make_safe_name s) = make_safe_name s.
Proof.
  intros Hs.
  destruct (Z_lt_le_dec MAX_NAME_LEN (len (safe_name_unbounded s))) as [L | L];
    [|apply make_safe_name_unshortened; assumption].
  destruct (shortened_shape s Hs L) as (Ht & (a & x & Hq & Hx) & Hshape).
  pose proof (make_safe_name_clean s) as Hc.
  assert (Hlen : len (make_safe_name s) = MAX_NAME_LEN)
    by (apply limit_name_len_long; assumption).
  set (q := make_safe_name s) in *.
  unfold make_safe_name at 1.
  rewrite safe_name_unbounded_eq; cbv zeta.
  rewrite (stripped_name_fixed q a x Hc Ht Hq Hx).
  destruct Hshape as [(base & e & Hres & Hfree & Hqe & Hu) | (b & Hb)].
  - assert (Hsh : split_head 46%N q = base).
    { rewrite Hqe, split_head_app by assumption; simpl.
      apply app_nil_r. }
    rewrite Hsh, Hres.
    replace (skipn (length base) q) with (46%N :: e)
      by (rewrite Hqe, skipn_app, Nat.sub_diag, skipn_all; reflexivity).
    rewrite <- Hu; reflexivity.
  - rewrite Hb, upper_app.
    replace (upper [95%N]) with [95%N] by reflexivity.
    rewrite underscore_end_not_reserved.
    apply limit_name_len_short; lia.
Qed.

(** X13: the sanitized name of a name of at most 255 characters ends
    with neither a space nor a period, shortened or not. *)
Lemma make_safe_name_end_255 (s : str) :
  len s <= MAX_NAME_LEN ->
  endswith (make_safe_name s) 32%N = false
  /\ endswith (make_safe_name s) 46%N = false.
Proof.
  intros Hs.
  assert (H : exists a x, make_safe_name s = a ++ [x] /\ char_in x (py " .") = false).
  { destruct (Z_lt_le_dec MAX_NAME_LEN (len (safe_name_unbounded s))) as [L | L].
    - apply (shortened_shape s Hs L).
    - unfold make_safe_name; rewrite limit_name_len_short by assumption.
      apply safe_name_unbounded_end. }
  destruct H as (a & x & -> & Hx).
  rewrite !endswith_last; apply char_in_space_dot; assumption.
Qed.

(** ** Claims on the sanitizer *)

(** C8: the name [CON.txt] is classified with the reserved-name error:
    the part before its first period is [CON], which is reserved, and the
    entry counts one error and needs a rename.  The sanitizer maps the
    name to [CON__.txt], the double underscore standing right after that
    part. *)
Theorem con_txt_reserved_and_fixed :
  split_head 46%N (py "CON.txt") = py "CON"
  /\ is_reserved_name (py "CON.txt") = true
  /\ is_reserved_name (py "con.txt") = true
  /\ classify (py "CON.txt") (py "CON.txt") false 0 = (1, 0, true)
  /\ make_safe_name (py "CON.txt") = py "CON__.txt"
  /\ make_safe_name (py "CON.txt") = py "CON" ++ py "__" ++ py ".txt".
Proof. repeat split; vm_compute; reflexivity. Qed.

(** C10: for every input the sanitizer returns a name that is not
    empty. *)
Theorem make_safe_name_not_empty (s : str) : make_safe_name s <> [].
Proof.
  unfold make_safe_name; intros H.
  destruct (Z_lt_le_dec MAX_NAME_LEN (len (safe_name_unbounded s))) as [L | L].
  - apply limit_name_len_long in L; rewrite H in L; discriminate.
  - rewrite limit_name_len_short in H by assumption.
    apply (safe_name_unbounded_not_nil s H).
Qed.

(** C4, as the code has it: the result has at most 255 characters; and
    when the extension of the name as it stands before the shortening
    step has at most 255 characters, the result is the first characters
    of the root of that name followed by its extension, unchanged. *)
Theorem make_safe_name_length (s : str) :
  len (make_safe_name s) <= MAX_NAME_LEN
  /\ (len (extension (safe_name_unbounded s)) <= MAX_NAME_LEN ->
      make_safe_name s =
        first_chars (MAX_NAME_LEN - len (extension (safe_name_unbounded s)))
          (fst (splitext (safe_name_unbounded s)))
        ++ extension (safe_name_unbounded s)).
Proof.
  split; [apply limit_name_len_bound|].
  unfold make_safe_name, extension.
  set (n := safe_name_unbounded s).
  destruct (splitext n) as [root ext] eqn:E; simpl fst; simpl snd.
  intros Hext; unfold limit_name_len; rewrite E.
  apply splitext_app in E; subst n; rewrite <- E, len_app.
  unfold first_chars, last_chars; rewrite len_app.
  destruct (MAX_NAME_LEN <? len root + len ext) eqn:L.
  - destruct (MAX_NAME_LEN - len ext <=? 0) eqn:A; [|reflexivity].
    apply Z.leb_le in A.
    replace (MAX_NAME_LEN - len ext) with 0 by lia.
    replace (len root + len ext - MAX_NAME_LEN) with (len root) by lia.
    unfold len; rewrite Nat2Z.id, skipn_app, skipn_all, Nat.sub_diag.
    reflexivity.
  - apply Z.ltb_ge in L; rewrite firstn_all2; [reflexivity|].
    unfold len in *; lia.
Qed.

Lemma make_safe_name_length_witness :
  make_safe_name long_name_txt = repeat 97%N 251 ++ py ".txt".
Proof.
  rewrite (proj2 (make_safe_name_length long_name_txt)).
  - vm_compute; reflexivity.
  - vm_compute; discriminate.
Defined.

(** C4 as stated fails: the extension of the result differs from the
    extension of the input where the sanitizer rewrites the extension
    itself, where the extension has exactly 255 characters, and where
    the part of the root that is kept holds periods only. *)
Lemma extension_not_preserved :
  (len (extension (py "a.b#")) <= MAX_NAME_LEN
   /\ extension (make_safe_name (py "a.b#")) <> extension (py "a.b#"))
  /\ (len (extension long_name_ext) <= MAX_NAME_LEN
      /\ extension (make_safe_name long_name_ext) <> extension long_name_ext)
  /\ (len (extension long_name_dots) <= MAX_NAME_LEN
      /\ extension (make_safe_name long_name_dots) <> extension long_name_dots).
Proof.
  repeat split; try (vm_compute; discriminate).
Qed.

(** C1, as the code has it: the result of the sanitizer never holds a
    forbidden, control or zero-width character; when the name needs no
    shortening it is not reserved and ends with neither a space nor a
    period; and a name that is not empty and on which no check fires is
    returned as it is. *)
Theorem make_safe_name_reclassifies (s : str) :
  no_bad_chars (make_safe_name s) = true
  /\ (len (safe_name_unbounded s) <= MAX_NAME_LEN ->
      no_violation (make_safe_name s) = true)
  /\ (s <> [] -> compliant s = true -> make_safe_name s = s).
Proof.
  split; [apply clean_no_bad_chars, make_safe_name_clean|].
  split.
  - intros H; unfold make_safe_name; rewrite limit_name_len_short by assumption.
    apply safe_name_unbounded_no_violation.
  - intros Hne Hc; unfold make_safe_name.
    rewrite (safe_name_unbounded_fixed _ Hne Hc).
    apply limit_name_len_short.
    unfold compliant in Hc; apply andb_true_iff in Hc as [_ Hc].
    apply Z.leb_le; assumption.
Qed.

Lemma make_safe_name_reclassifies_witness :
  no_violation (make_safe_name (py "~a<b>. .")) = true
  /\ make_safe_name (py "report.final.txt") = py "report.final.txt".
Proof.
  split.
  - apply (proj1 (proj2 (make_safe_name_reclassifies (py "~a<b>. .")))).
    vm_compute; discriminate.
  - apply (proj2 (proj2 (make_safe_name_reclassifies (py "report.final.txt")))).
    + discriminate.
    + vm_compute; reflexivity.
Defined.

(** C1 as stated fails.  The empty name passes every check and is not
    returned unchanged, and a name with a problematic character passes
    the five checks of the invariant and is rewritten.  A reserved name
    of 255 characters comes back as it is, still reserved; a name of 256
    characters is shortened to a reserved name, and another to a name
    that ends with a space. *)
Lemma sanitized_name_not_always_clean :
  (compliant [] = true /\ make_safe_name [] <> [])
  /\ (no_violation (py "a#b") = true /\ make_safe_name (py "a#b") <> py "a#b")
  /\ (len reserved_fixed_name <= MAX_NAME_LEN
      /\ make_safe_name reserved_fixed_name = reserved_fixed_name
      /\ is_reserved_name (make_safe_name reserved_fixed_name) = true
      /\ no_violation (make_safe_name reserved_fixed_name) = false)
  /\ (is_reserved_name (make_safe_name long_name_reserved) = true
      /\ no_violation (make_safe_name long_name_reserved) = false)
  /\ (endswith (make_safe_name long_name_space) 32%N = true
      /\ no_violation (make_safe_name long_name_space) = false).
Proof.
  repeat split; try (vm_compute; reflexivity); vm_compute; discriminate.
Qed.

(** C3 fails on the code: a name of 256 characters with a space in
    position 255 is shortened to a name that ends with that space, and
    sanitizing the result again strips it. *)
Theorem make_safe_name_not_fixed_point :
  make_safe_name long_name_space = repeat 97%N 254 ++ py " "
  /\ make_safe_name (make_safe_name long_name_space) = repeat 97%N 254
  /\ make_safe_name (make_safe_name long_name_space) <> make_safe_name long_name_space.
Proof.
  repeat split; try (vm_compute; reflexivity).
  intros H; apply (f_equal (@length char)) in H; vm_compute in H; discriminate.
Qed.

(** ** Directory entries and collision avoidance *)

Lemma py_inj (a b : string) : py a = py b -> a = b.
Proof.
  revert b; induction a as [|x a IH]; intros [|y b] H; simpl in H;
    try discriminate; [reflexivity|].
  inversion H as [[Hx Hab]].
  apply (f_equal ascii_of_N) in Hx; rewrite !ascii_N_embedding in Hx.
  subst; f_equal; apply IH; assumption.
Qed.

Lemma str_of_nat_inj (i j : nat) : str_of_nat i = str_of_nat j -> i = j.
Proof.
  unfold str_of_nat; intros H; apply py_inj in H.
  apply (f_equal NilEmpty.uint_of_string) in H.
  rewrite !NilEmpty.usu in H; inversion H as [H'].
  apply (f_equal Nat.of_uint) in H'.
  rewrite !DecimalNat.Unsigned.of_to in H'; assumption.
Qed.

Lemma numbered_inj (desired : str) (i j : nat) :
  numbered desired i = numbered desired j -> i = j.
Proof.
  unfold numbered; destruct (splitext desired) as [root ext]; intros H.
  apply app_inv_head in H; apply app_inv_head in H.
  apply app_inv_tail in H; apply str_of_nat_inj; assumption.
Qed.

Lemma lookup_In (name : str) (d : listing) (x : node) :
  lookup name d = Some x -> In (name, x) d.
Proof.
  induction d as [|[n y] t IH]; simpl; [discriminate|].
  destruct (str_eqb n name) eqn:E; intros H.
  - apply str_eqb_eq in E; inversion H; subst; left; reflexivity.
  - right; apply IH; assumption.
Qed.

Lemma lookup_None (name : str) (d : listing) :
  lookup name d = None <-> ~ In name (map fst d).
Proof.
  induction d as [|[n y] t IH]; simpl; [tauto|].
  destruct (str_eqb n name) eqn:E.
  - apply str_eqb_eq in E; split; [discriminate | tauto].
  - apply str_eqb_neq in E; rewrite IH; tauto.
Qed.

Lemma path_exists_In (d : listing) (name : str) :
  path_exists d name = true <-> In name (map fst d).
Proof.
  unfold path_exists; destruct (lookup name d) eqn:E.
  - split; [intros _ | reflexivity].
    apply lookup_In in E; apply (in_map fst) in E; assumption.
  - apply lookup_None in E; split; [discriminate | contradiction].
Qed.

Lemma path_exists_not_In (d : listing) (name : str) :
  path_exists d name = false <-> ~ In name (map fst d).
Proof.
  rewrite <- path_exists_In; destruct (path_exists d name); split; congruence.
Qed.

Lemma NoDup_map_inj {A B : Type} (f : A -> B) (l : list A) :
  (forall x y, f x = f y -> x = y) -> NoDup l -> NoDup (map f l).
Proof.
  intros Hf; induction 1 as [|x l Hx Hl IH]; simpl; constructor; [|assumption].
  intros H; apply in_map_iff in H as (y & E & Hy).
  apply Hf in E; subst; contradiction.
Qed.

Lemma unique_loop_done (fuel : nat) (d : listing) (desired cand : str)
    (k : nat) (c : str) :
  unique_loop fuel d desired cand k = Done c -> path_exists d c = false.
Proof.
  revert cand k; induction fuel as [|fuel IH]; intros cand k; simpl;
    destruct (path_exists d cand) eqn:E; try discriminate.
  - intros H; inversion H; subst; assumption.
  - destruct (splitext desired) as [root ext]; apply IH.
  - intros H; inversion H; subst; assumption.
Qed.

Lemma unique_loop_not_raised (fuel : nat) (d : listing) (desired cand : str)
    (k : nat) :
  unique_loop fuel d desired cand k <> Raised.
Proof.
  revert cand k; induction fuel as [|fuel IH]; intros cand k; simpl;
    destruct (path_exists d cand); try discriminate.
  destruct (splitext desired) as [root ext]; apply IH.
Qed.

Lemma unique_loop_out_head (fuel : nat) (d : listing) (desired cand : str)
    (k : nat) :
  unique_loop fuel d desired cand k = OutOfFuel -> path_exists d cand = true.
Proof.
  destruct fuel; simpl; destruct (path_exists d cand); try discriminate;
    reflexivity.
Qed.

(** The loop runs out of fuel only when every candidate it tried
    exists. *)
Lemma unique_loop_out (fuel : nat) (d : listing) (desired cand : str) (k : nat) :
  unique_loop fuel d desired cand k = OutOfFuel ->
  forall j, (k <= j < k + fuel)%nat -> path_exists d (numbered desired j) = true.
Proof.
  revert cand k; induction fuel as [|fuel IH]; intros cand k; simpl;
    destruct (path_exists d cand) eqn:E; try discriminate.
  - intros _ j Hj; lia.
  - intros H j Hj.
    destruct (Nat.eq_dec j k) as [-> | Hne].
    + unfold numbered; destruct (splitext desired) as [root ext].
      apply unique_loop_out_head in H; assumption.
    + destruct (splitext desired) as [root ext] eqn:Es.
      apply (IH _ _ H); lia.
Qed.

(** [get_unique_name] returns, and the name it returns is free. *)
Lemma get_unique_name_total (d : listing) (desired : str) :
  exists c, get_unique_name d desired = Done c /\ path_exists d c = false.
Proof.
  unfold get_unique_name.
  destruct (unique_loop (S (length d)) d desired desired 1) as [c | |] eqn:E.
  - exists c; split; [reflexivity | eapply unique_loop_done; eassumption].
  - apply unique_loop_not_raised in E; contradiction.
  - exfalso.
    pose proof (unique_loop_out _ _ _ _ _ E) as H.
    assert (Hn : NoDup (map (numbered desired) (seq 1 (S (length d))))).
    { apply NoDup_map_inj; [apply numbered_inj | apply seq_NoDup]. }
    apply (NoDup_incl_length (l' := map fst d)) in Hn.
    + rewrite !length_map, length_seq in Hn; lia.
    + intros x Hx; apply in_map_iff in Hx as (j & <- & Hj).
      apply in_seq in Hj; apply path_exists_In, H; lia.
Qed.

Lemma get_unique_name_free (d : listing) (desired : str) :
  path_exists d desired = false -> get_unique_name d desired = Done desired.
Proof. unfold get_unique_name; simpl; intros ->; reflexivity. Qed.

Lemma get_unique_name_done (d : listing) (desired c : str) :
  get_unique_name d desired = Done c -> path_exists d c = false.
Proof. apply unique_loop_done. Qed.

Lemma unique_loop_candidate (fuel : nat) (d : listing) (desired cand : str)
    (k : nat) (c : str) :
  unique_loop fuel d desired cand k = Done c ->
  c = cand \/ exists j, (k <= j < k + fuel)%nat /\ c = numbered desired j.
Proof.
  revert cand k; induction fuel as [|fuel IH]; intros cand k; simpl;
    destruct (path_exists d cand); try discriminate;
    try (intros H; inversion H; left; reflexivity).
  destruct (splitext desired) as [root ext] eqn:Es; intros H.
  apply IH in H as [-> | (j & Hj & ->)]; right.
  - exists k; split; [lia|]; unfold numbered; rewrite Es; reflexivity.
  - exists j; split; [lia | reflexivity].
Qed.

(** The name [get_unique_name] returns is the desired one or one of the
    numbered ones, the counter being at most the number of entries plus
    one. *)
Lemma get_unique_name_candidate (d : listing) (desired c : str) :
  get_unique_name d desired = Done c -> In c (candidates (length d) desired).
Proof.
  intros H; apply unique_loop_candidate in H as [-> | (j & Hj & ->)];
    [left; reflexivity | right].
  apply in_map, in_seq; lia.
Qed.

(** ** Classification and repair of one entry *)

Lemma bind_Done {A B : Type} (m : outcome A) (k : A -> outcome B) (b : B) :
  bind m k = Done b -> exists a, m = Done a /\ k a = Done b.
Proof. destruct m as [a| |]; simpl; try discriminate; eauto. Qed.

(** The three results of the checks, each check contributing on its
    own. *)
Lemma classify_eq (basename rel_path : str) (fix_ : bool) (prefix_len : Z) :
  classify basename rel_path fix_ prefix_len =
    (Z.b2z (MAX_PATH_LEN <? prefix_len + len rel_path)
     + Z.b2z (MAX_NAME_LEN <? len basename)
     + Z.b2z (negb (is_nil (has_forbidden_chars basename)))
     + Z.b2z (endswith basename 32%N || endswith basename 46%N)
     + Z.b2z (is_reserved_name basename)
     + Z.b2z (negb (is_nil (has_control_chars basename)))
     + Z.b2z (negb (is_nil (has_zero_width_or_rtl basename))),
     Z.b2z (negb (is_nil (has_problematic_chars basename)))
     + Z.b2z (startswith basename 126%N),
     name_error basename || (fix_ && fix_escalated basename)).
Proof.
  unfold classify, name_error, fix_escalated; cbv zeta.
  destruct (MAX_PATH_LEN <? prefix_len + len rel_path);
  destruct (MAX_NAME_LEN <? len basename);
  destruct (has_forbidden_chars basename);
  destruct (endswith basename 32%N || endswith basename 46%N);
  destruct (is_reserved_name basename);
  destruct (has_control_chars basename);
  destruct (has_zero_width_or_rtl basename);
  destruct (has_problematic_chars basename);
  destruct (startswith basename 126%N);
  destruct fix_; reflexivity.
Qed.

Lemma b2z_range (b : bool) : 0 <= Z.b2z b <= 1.
Proof. destruct b; simpl; lia. Qed.

Lemma classify_errors_nonneg (basename rel_path : str) (fix_ : bool) (prefix_len : Z) :
  0 <= fst (fst (classify basename rel_path fix_ prefix_len)).
Proof.
  rewrite classify_eq; cbn [fst].
  repeat match goal with
         | |- context [Z.b2z ?b] =>
             let H := fresh in pose proof (b2z_range b) as H;
             generalize dependent (Z.b2z b); intros
         end.
  lia.
Qed.

Lemma classify_errors_path (basename rel_path : str) (fix_ : bool) (prefix_len : Z) :
  MAX_PATH_LEN < prefix_len + len rel_path ->
  1 <= fst (fst (classify basename rel_path fix_ prefix_len)).
Proof.
  intros H; rewrite classify_eq; cbn [fst].
  apply Z.ltb_lt in H; rewrite H; cbn [Z.b2z].
  repeat match goal with
         | |- context [Z.b2z ?b] =>
             let H := fresh in pose proof (b2z_range b) as H;
             generalize dependent (Z.b2z b); intros
         end.
  lia.
Qed.

Lemma replace_name_same (name : str) (d : listing) : replace_name name name d = d.
Proof.
  induction d as [|[n x] t IH]; simpl; [reflexivity|].
  destruct (str_eqb n name) eqn:E; [|rewrite IH; reflexivity].
  apply str_eqb_eq in E; subst; reflexivity.
Qed.

Lemma os_rename_free (dirpath : list str) (src dst : str) (w : world) (x : node) :
  lookup src (entries w) = Some x ->
  path_exists (entries w) dst = false ->
  permits w dirpath src dst = true ->
  os_rename dirpath src dst w =
    Done (mk_world (replace_name src dst (entries w))
                   (calls w ++ [Rename dirpath src dst]) (permits w)).
Proof.
  unfold os_rename, path_exists; intros Hs Hd Hp; rewrite Hs, Hp; cbn [negb].
  destruct (str_eqb src dst) eqn:E.
  - apply str_eqb_eq in E; subst; rewrite Hs in Hd; discriminate.
  - destruct (lookup dst (entries w)); [discriminate | reflexivity].
Qed.

(** A rename the operating system refuses raises. *)
Lemma os_rename_refused (dirpath : list str) (src dst : str) (w : world) :
  permits w dirpath src dst = false -> os_rename dirpath src dst w = Raised.
Proof.
  unfold os_rename; intros ->; destruct (lookup src (entries w)); reflexivity.
Qed.

(** A rename that returns was one the operating system lets through; it
    is logged, and what the operating system permits stays as it is. *)
Lemma os_rename_logs (dirpath : list str) (src dst : str) (w w' : world) :
  os_rename dirpath src dst w = Done w' ->
  calls w' = calls w ++ [Rename dirpath src dst]
  /\ permits w' = permits w
  /\ permits w dirpath src dst = true.
Proof.
  unfold os_rename; intros H.
  destruct (lookup src (entries w)) as [x|]; [|discriminate].
  destruct (permits w dirpath src dst); [|discriminate]; cbn [negb] in H.
  destruct (str_eqb src dst); [inversion H; auto|].
  destruct (lookup dst (entries w)) as [[j | j [|e l]]|], x;
    try discriminate; inversion H; auto.
Qed.

Lemma replace_name_length (a b : str) (d : listing) :
  length (replace_name a b d) = length d.
Proof.
  induction d as [|[n x] t IH]; simpl; [reflexivity|].
  destruct (str_eqb n a); simpl; [|rewrite IH]; reflexivity.
Qed.

(** What a call that returns has done: nothing, or, in fix mode and with
    the flag set, one rename to a free name other than the old one. *)
Lemma check_and_maybe_fix_inv (dirpath : list str) (basename : str)
    (is_dir fix_ : bool) (prefix_len : Z) (w : world)
    (e wn : Z) (new_name : str) (did : bool) (w' : world) :
  check_and_maybe_fix dirpath basename is_dir fix_ prefix_len w
    = Done (e, wn, new_name, did, w') ->
  (e, wn) = fst (classify basename (path_join (dirpath ++ [basename])) fix_ prefix_len)
  /\ ((did = false /\ new_name = basename /\ w' = w)
      \/ (did = true /\ fix_ = true
          /\ snd (classify basename (path_join (dirpath ++ [basename])) fix_ prefix_len) = true
          /\ new_name <> basename
          /\ get_unique_name (entries w) (make_safe_name basename) = Done new_name
          /\ os_rename dirpath basename new_name w = Done w')).
Proof.
  unfold check_and_maybe_fix; cbv zeta.
  destruct (classify _ _ _ _) as [[e0 wn0] rn]; cbn [fst snd].
  destruct (fix_ && rn) eqn:Efr.
  - apply andb_true_iff in Efr as [-> ->].
    intros H; apply bind_Done in H as (c & Hc & H).
    destruct (str_eqb c basename) eqn:Ec; cbn [negb] in H.
    + inversion H; subst; split; [reflexivity | left; auto].
    + apply bind_Done in H as (w1 & Hw & H); inversion H; subst.
      split; [reflexivity | right].
      apply str_eqb_neq in Ec; auto 10.
  - intros H; inversion H; subst; split; [reflexivity | left; auto].
Qed.

(** A call on a name the directory holds returns when the operating
    system lets through every rename to a name of at most [limit]
    characters and the names the call can ask for are that short. *)
Lemma check_and_maybe_fix_total (dirpath : list str) (basename : str)
    (is_dir fix_ : bool) (prefix_len limit : Z) (w : world) (x : node) :
  lookup basename (entries w) = Some x ->
  (fix_ = true ->
   forall dp src dst, len dst <= limit -> permits w dp src dst = true) ->
  fits fix_ limit (length (entries w)) basename = true ->
  exists e wn new_name did w',
    check_and_maybe_fix dirpath basename is_dir fix_ prefix_len w
      = Done (e, wn, new_name, did, w')
    /\ entries w' = replace_name basename new_name (entries w)
    /\ (new_name = basename \/ ~ In new_name (map fst (entries w)))
    /\ permits w' = permits w.
Proof.
  intros Hx Hos Hfit; unfold check_and_maybe_fix; cbv zeta.
  rewrite classify_eq.
  set (e0 := _ + _ + _ + _ + _ + _ + _); set (wn0 := _ + _).
  destruct (fix_ && (name_error basename || fix_ && fix_escalated basename)) eqn:Efr.
  - apply andb_true_iff in Efr as [-> Efr]; cbn [andb] in Efr.
    unfold fits in Hfit; rewrite Efr in Hfit; cbn [andb negb orb] in Hfit.
    rewrite forallb_forall in Hfit.
    destruct (get_unique_name_total (entries w) (make_safe_name basename))
      as (c & Hg & Hc); rewrite Hg; cbn [bind].
    destruct (str_eqb c basename) eqn:Ec; cbn [negb].
    + exists e0, wn0, basename, false, w; repeat split;
        [rewrite replace_name_same; reflexivity | left; reflexivity].
    + assert (Hp : permits w dirpath basename c = true).
      { apply Hos; [reflexivity|].
        apply Z.leb_le, Hfit, get_unique_name_candidate; assumption. }
      rewrite (os_rename_free _ _ _ _ _ Hx Hc Hp); cbn [bind].
      eexists e0, wn0, c, true, _; repeat split.
      right; apply path_exists_not_In; assumption.
  - exists e0, wn0, basename, false, w; repeat split;
      [rewrite replace_name_same; reflexivity | left; reflexivity].
Qed.

(** ** The walk relates the state before to the state after *)

(** Any relation between states that every visit of an entry
    establishes, and that carries over from a subdirectory to its
    parent, holds between the start and the end of a walk. *)
Section WalkRelation.

Variables (fix_ : bool) (prefix_len : Z).
Variable R : state -> state -> Prop.

Hypothesis R_refl : forall st, R st st.
Hypothesis R_trans : forall a b c, R a b -> R b c -> R a c.
Hypothesis R_visit :
  forall dirpath name is_dir st new_name st',
    visit_entry dirpath name is_dir fix_ prefix_len st = Done (new_name, st') ->
    R st st'.
Hypothesis R_descend :
  forall w t dirname i sub w1 t1,
    lookup dirname (entries w) = Some (Dir i sub) ->
    R (mk_world sub (calls w) (permits w), t) (w1, t1) ->
    R (w, t)
      (mk_world (replace_node dirname (Dir i (entries w1)) (entries w)) (calls w1)
       (permits w), t1).

Lemma dirs_loop_rel (dirpath : list str) (snapshot : list (nat * str)) :
  forall dirnames st dirnames' st',
    dirs_loop dirpath fix_ prefix_len snapshot dirnames st = Done (dirnames', st') ->
    R st st'.
Proof.
  induction snapshot as [|[i d] rest IH]; intros dirnames st dirnames' st' H;
    cbn [dirs_loop] in H.
  - inversion H; subst; apply R_refl.
  - apply bind_Done in H as ([new_name st1] & Hv & H).
    apply bind_Done in H as (dn & _ & H).
    eapply R_trans; [eapply R_visit; eassumption | eapply IH; eassumption].
Qed.

Lemma files_loop_rel (dirpath : list str) (filenames : list str) :
  forall st st',
    files_loop dirpath fix_ prefix_len filenames st = Done st' -> R st st'.
Proof.
  induction filenames as [|f rest IH]; intros st st' H; cbn [files_loop] in H.
  - inversion H; subst; apply R_refl.
  - apply bind_Done in H as ([new_name st1] & Hv & H).
    eapply R_trans; [eapply R_visit; eassumption | eapply IH; eassumption].
Qed.

Lemma validate_body_rel (dirpath dirnames filenames : list str)
    (st : state) (dirnames' : list str) (st' : state) :
  validate_body fix_ prefix_len dirpath dirnames filenames st = Done (dirnames', st') ->
  R st st'.
Proof.
  unfold validate_body; intros H.
  apply bind_Done in H as ([dn st1] & Hd & H).
  apply bind_Done in H as (st2 & Hf & H); inversion H; subst.
  eapply R_trans; [eapply dirs_loop_rel | eapply files_loop_rel]; eassumption.
Qed.

Lemma descend_rel (walk_dir : list str -> state -> outcome state) (top : list str) :
  (forall p st st', walk_dir p st = Done st' -> R st st') ->
  forall dirs st st', descend walk_dir top dirs st = Done st' -> R st st'.
Proof.
  intros Hw; induction dirs as [|d rest IH]; intros [w t] st' H;
    cbn [descend] in H.
  - inversion H; subst; apply R_refl.
  - destruct (lookup d (entries w)) as [[j | j sub]|] eqn:E;
      try (apply IH; assumption).
    apply bind_Done in H as ([w1 t1] & Hs & H).
    eapply R_trans; [|apply IH; eassumption].
    eapply R_descend; [eassumption | eapply Hw; eassumption].
Qed.

Lemma os_walk_rel (fuel : nat) :
  forall top st st',
    os_walk fuel (validate_body fix_ prefix_len) top st = Done st' -> R st st'.
Proof.
  induction fuel as [|fuel IH]; intros top st st' H; cbn [os_walk] in H;
    [discriminate|].
  apply bind_Done in H as ([dn st1] & Hb & H).
  eapply R_trans; [eapply validate_body_rel; eassumption|].
  eapply descend_rel; [|eassumption].
  intros p a b; apply IH.
Qed.

End WalkRelation.

(** ** Claims on one entry and on the totals of a run *)

Lemma visit_entry_inv (dirpath : list str) (name : str) (is_dir fix_ : bool)
    (prefix_len : Z) (w : world) (t : totals) (new_name : str) (st' : state) :
  visit_entry dirpath name is_dir fix_ prefix_len (w, t) = Done (new_name, st') ->
  exists e wn did w',
    check_and_maybe_fix dirpath name is_dir fix_ prefix_len w
      = Done (e, wn, new_name, did, w')
    /\ st' = (w', mk_totals (t_errors t + e) (t_warnings t + wn)
                   (if did then t_renames t + 1 else t_renames t)
                   (t_visits t ++
                      [mk_visit (option_map ino_of (lookup name (entries w)))
                         dirpath name is_dir
                         (prefix_len + len (path_join (dirpath ++ [name])))
                         e wn new_name did])).
Proof.
  unfold visit_entry; intros H.
  apply bind_Done in H as ([[[[e wn] nn] did] w'] & Hc & H).
  inversion H; subst; eauto 10.
Qed.

Lemma compliant_no_finding (basename : str) :
  compliant basename = true ->
  name_error basename = false /\ fix_escalated basename = false.
Proof.
  unfold compliant, no_violation, no_bad_chars, name_error, fix_escalated.
  rewrite !andb_true_iff, !negb_true_iff.
  intros (((((((Hf & Hc) & Hz) & Hr) & He) & Hp) & Ht) & Hl).
  rewrite Hf, Hc, Hz, Hr, He, Hp, Ht.
  apply Z.leb_le in Hl.
  replace (MAX_NAME_LEN <? len basename) with false
    by (symmetry; apply Z.ltb_ge; assumption).
  split; reflexivity.
Qed.

(** C6, as the code has it: the flag [rename_needed] is set exactly when
    one of the checks on the name that count as errors fires (length of
    the name, forbidden characters, trailing space or period, reserved
    name, control characters, zero-width characters) or, in fix mode,
    one of the two checks that only warn (problematic characters,
    leading tilde).  The check of the effective path length has no part
    in it. *)
Theorem rename_needed_flag (basename rel_path : str) (fix_ : bool) (prefix_len : Z) :
  snd (classify basename rel_path fix_ prefix_len)
    = name_error basename || (fix_ && fix_escalated basename).
Proof. rewrite classify_eq; reflexivity. Qed.

(** C6 as stated fails: with an effective path length of 401 the entry
    [ok] counts an error, and the flag stays unset, in fix mode too. *)
Lemma path_error_sets_no_flag :
  classify (py "ok") (py "ok") false 399 = (1, 0, false)
  /\ classify (py "ok") (py "ok") true 399 = (1, 0, false).
Proof. split; vm_compute; reflexivity. Qed.

(** ** Claims on a whole run *)

Lemma replace_node_same (name : str) (x : node) (d : listing) :
  lookup name d = Some x -> replace_node name x d = d.
Proof.
  induction d as [|[n y] t IH]; simpl; [reflexivity|].
  destruct (str_eqb n name); intros H.
  - inversion H; reflexivity.
  - rewrite IH by assumption; reflexivity.
Qed.

Lemma untouched_refl (st : state) : untouched st st.
Proof.
  repeat split; exists []; rewrite app_nil_r; split; [reflexivity | constructor].
Qed.

Lemma untouched_trans (a b c : state) : untouched a b -> untouched b c -> untouched a c.
Proof.
  intros (Hw1 & Hr1 & vs1 & Hv1 & Hf1) (Hw2 & Hr2 & vs2 & Hv2 & Hf2).
  repeat split; try congruence.
  exists (vs1 ++ vs2); split.
  - rewrite Hv2, Hv1, app_assoc; reflexivity.
  - apply Forall_app; split; assumption.
Qed.

Lemma untouched_visit (prefix_len : Z) (dirpath : list str) (name : str)
    (is_dir : bool) (st : state) (new_name : str) (st' : state) :
  visit_entry dirpath name is_dir false prefix_len st = Done (new_name, st') ->
  untouched st st'.
Proof.
  destruct st as [w t]; intros H.
  apply visit_entry_inv in H as (e & wn & did & w' & Hc & ->).
  apply check_and_maybe_fix_inv in Hc as (_ & [(-> & -> & ->) | (_ & Hfix & _)]);
    [|discriminate].
  repeat split; cbn [fst snd t_visits t_renames].
  eexists; split; [reflexivity|].
  repeat constructor.
Qed.

Lemma untouched_descend (w : world) (t : totals) (dirname : str) (i : nat)
    (sub : listing) (w1 : world) (t1 : totals) :
  lookup dirname (entries w) = Some (Dir i sub) ->
  untouched (mk_world sub (calls w) (permits w), t) (w1, t1) ->
  untouched (w, t)
    (mk_world (replace_node dirname (Dir i (entries w1)) (entries w)) (calls w1)
       (permits w), t1).
Proof.
  intros Hl (Hw & Hr & Hv); cbn [fst snd] in *; subst w1; cbn [entries calls].
  rewrite (replace_node_same _ _ _ Hl).
  repeat split; try assumption.
  destruct w; reflexivity.
Qed.

Lemma counted_refl (st : state) : counted st st.
Proof.
  split; [lia|]; exists []; rewrite app_nil_r; split; [reflexivity|].
  intros v [].
Qed.

Lemma counted_trans (a b c : state) : counted a b -> counted b c -> counted a c.
Proof.
  intros (He1 & vs1 & Hv1 & Hf1) (He2 & vs2 & Hv2 & Hf2).
  split; [lia|]; exists (vs1 ++ vs2); split.
  - rewrite Hv2, Hv1, app_assoc; reflexivity.
  - intros v Hin Hlen; apply in_app_or in Hin as [Hin | Hin].
    + specialize (Hf1 v Hin Hlen); lia.
    + specialize (Hf2 v Hin Hlen); lia.
Qed.

Lemma counted_visit (fix_ : bool) (prefix_len : Z) (dirpath : list str)
    (name : str) (is_dir : bool) (st : state) (new_name : str) (st' : state) :
  visit_entry dirpath name is_dir fix_ prefix_len st = Done (new_name, st') ->
  counted st st'.
Proof.
  destruct st as [w t]; intros H.
  apply visit_entry_inv in H as (e & wn & did & w' & Hc & ->).
  apply check_and_maybe_fix_inv in Hc as (Hcl & _).
  assert (He : e = fst (fst (classify name (path_join (dirpath ++ [name]))
                               fix_ prefix_len)))
    by (rewrite <- Hcl; reflexivity).
  pose proof (classify_errors_nonneg name (path_join (dirpath ++ [name]))
                fix_ prefix_len) as H0.
  split; cbn [fst snd t_errors t_visits]; [lia|].
  eexists; split; [reflexivity|].
  intros v [<- | []]; cbn [v_len]; intros Hlen.
  apply (classify_errors_path name _ fix_) in Hlen; lia.
Qed.

Lemma counted_descend (w : world) (t : totals) (dirname : str) (i : nat)
    (sub : listing) (w1 : world) (t1 : totals) :
  lookup dirname (entries w) = Some (Dir i sub) ->
  counted (mk_world sub (calls w) (permits w), t) (w1, t1) ->
  counted (w, t)
    (mk_world (replace_node dirname (Dir i (entries w1)) (entries w)) (calls w1)
       (permits w), t1).
Proof. intros _ H; exact H. Qed.

Lemma validate_inv (fuel : nat) (os : policy) (root : listing) (fix_ : bool) (prefix_len : Z)
    (code : Z) (w : world) (t : totals) :
  validate fuel os root fix_ prefix_len = Done (code, w, t) ->
  os_walk fuel (validate_body fix_ prefix_len) []
    (mk_world root [] os, mk_totals 0 0 0 []) = Done (w, t)
  /\ code = (if 0 <? t_errors t then 1 else 0).
Proof.
  unfold validate; cbv zeta; intros H.
  apply bind_Done in H as ([w1 t1] & Hw & H); inversion H; subst; auto.
Qed.

(** C7: without fix mode a call of [check_and_maybe_fix] issues no
    rename and leaves the world as it is, returns the base name it was
    given and reports no rename; a whole run leaves the tree as it was,
    issues no rename, counts none, and this holds of every visit. *)
Theorem report_only_changes_nothing :
  (forall dirpath basename is_dir prefix_len w,
      exists e wn,
        check_and_maybe_fix dirpath basename is_dir false prefix_len w
          = Done (e, wn, basename, false, w))
  /\ (forall fuel os root prefix_len code w t,
        validate fuel os root false prefix_len = Done (code, w, t) ->
        entries w = root /\ calls w = [] /\ t_renames t = 0
        /\ Forall (fun v => v_renamed v = false /\ v_new_name v = v_name v)
             (t_visits t)).
Proof.
  split.
  - intros dirpath basename is_dir prefix_len w.
    unfold check_and_maybe_fix; cbv zeta.
    destruct (classify _ _ _ _) as [[e wn] rn]; cbn [andb]; eauto.
  - intros fuel os root prefix_len code w t H.
    apply validate_inv in H as [H _].
    apply (os_walk_rel false prefix_len untouched untouched_refl untouched_trans
             (untouched_visit prefix_len) untouched_descend) in H.
    destruct H as (Hw & Hr & vs & Hv & Hf); cbn [fst snd] in *.
    subst w; cbn [app] in Hv; rewrite Hv; auto.
Qed.

Lemma report_only_changes_nothing_witness :
  exists code w t,
    validate 3 (name_limit 255) sample_tree false 0 = Done (code, w, t)
    /\ (entries w = sample_tree /\ calls w = [] /\ t_renames t = 0
        /\ Forall (fun v => v_renamed v = false /\ v_new_name v = v_name v)
             (t_visits t)).
Proof.
  eexists _, _, _; split.
  2: { eapply (proj2 report_only_changes_nothing 3%nat (name_limit 255) sample_tree 0).
       vm_compute; reflexivity. }
  vm_compute; reflexivity.
Defined.

(** The name [get_unique_name] returns is never the name of an entry of
    the directory. *)
Lemma get_unique_name_not_entry (d : listing) (desired name : str) :
  In name (map fst d) -> get_unique_name d desired <> Done name.
Proof.
  intros Hin H; apply get_unique_name_done in H.
  apply path_exists_not_In in H; contradiction.
Qed.

(** C5: an effective path length above 400 counts an error; the flag
    [rename_needed] does not depend on the path or on the prefix length;
    an entry whose name passes every check and whose path is too long
    counts one error and is left as it is, in fix mode as without; and a
    run in which a visited entry had a path that long returns 1, in fix
    mode as without. *)
Theorem path_too_long_report_only :
  (forall basename rel_path fix_ prefix_len,
      MAX_PATH_LEN < prefix_len + len rel_path ->
      1 <= fst (fst (classify basename rel_path fix_ prefix_len)))
  /\ (forall basename rel_path rel_path' fix_ prefix_len prefix_len',
        snd (classify basename rel_path fix_ prefix_len)
          = snd (classify basename rel_path' fix_ prefix_len'))
  /\ (forall dirpath basename is_dir fix_ prefix_len w,
        compliant basename = true ->
        MAX_PATH_LEN < prefix_len + len (path_join (dirpath ++ [basename])) ->
        check_and_maybe_fix dirpath basename is_dir fix_ prefix_len w
          = Done (1, 0, basename, false, w))
  /\ (forall fuel os root fix_ prefix_len code w t v,
        validate fuel os root fix_ prefix_len = Done (code, w, t) ->
        In v (t_visits t) -> MAX_PATH_LEN < v_len v -> code = 1).
Proof.
  split; [intros; apply classify_errors_path; assumption|].
  split; [intros; rewrite !classify_eq; reflexivity|].
  split.
  - intros dirpath basename is_dir fix_ prefix_len w Hc Hlen.
    unfold check_and_maybe_fix; cbv zeta; rewrite classify_eq.
    destruct (compliant_no_finding _ Hc) as [Hn Hf]; rewrite Hn, Hf.
    unfold name_error in Hn.
    apply orb_false_iff in Hn as [Hn ->]; apply orb_false_iff in Hn as [Hn ->].
    apply orb_false_iff in Hn as [Hn ->]; apply orb_false_iff in Hn as [Hn ->].
    apply orb_false_iff in Hn as [-> ->].
    unfold fix_escalated in Hf; apply orb_false_iff in Hf as [-> ->].
    apply Z.ltb_lt in Hlen; rewrite Hlen; destruct fix_; reflexivity.
  - intros fuel os root fix_ prefix_len code w t v H Hin Hlen.
    apply validate_inv in H as [H ->].
    apply (os_walk_rel fix_ prefix_len counted counted_refl counted_trans
             (counted_visit fix_ prefix_len) counted_descend) in H.
    destruct H as (_ & vs & Hv & Hf); cbn [fst snd t_visits t_errors app] in *.
    subst vs; specialize (Hf v Hin Hlen).
    apply Z.ltb_lt in Hf; rewrite Hf; reflexivity.
Qed.

Lemma path_too_long_report_only_witness :
  check_and_maybe_fix [py "docs"] (py "notes.txt") false true 390 (mk_world [] [] (name_limit 255))
    = Done (1, 0, py "notes.txt", false, mk_world [] [] (name_limit 255))
  /\ exists code w t v,
       validate 3 (name_limit 255) sample_tree true 395 = Done (code, w, t)
       /\ In v (t_visits t) /\ MAX_PATH_LEN < v_len v /\ code = 1.
Proof.
  split.
  - apply (proj1 (proj2 (proj2 path_too_long_report_only))).
    + vm_compute; reflexivity.
    + vm_compute; reflexivity.
  - eexists _, _, _, _; split; [vm_compute; reflexivity|].
    assert (Hin : forall (x : visit) l, In x (x :: l)) by (intros; left; reflexivity).
    split; [apply Hin|].
    split; [vm_compute; reflexivity|].
    eapply (proj2 (proj2 (proj2 path_too_long_report_only)) 3%nat (name_limit 255) sample_tree true 395).
    + vm_compute; reflexivity.
    + apply Hin.
    + vm_compute; reflexivity.
Defined.

(** ** Renames in a directory *)

Lemma distinct_NoDup (l : list str) : distinct l = true <-> NoDup l.
Proof.
  induction l as [|n t IH]; simpl.
  - split; [constructor | reflexivity].
  - rewrite andb_true_iff, negb_true_iff, str_in_not_In, IH; split.
    + intros [H1 H2]; constructor; assumption.
    + intros H; inversion H; auto.
Qed.

Lemma lookup_NoDup (d : listing) (n : str) (x : node) :
  NoDup (map fst d) -> In (n, x) d -> lookup n d = Some x.
Proof.
  induction d as [|[m y] t IH]; simpl; intros Hnd Hin; [contradiction|].
  inversion Hnd as [|? ? Hm Ht]; subst.
  destruct Hin as [E | Hin].
  - inversion E; subst; rewrite str_eqb_refl; reflexivity.
  - destruct (str_eqb m n) eqn:E; [|apply IH; assumption].
    apply str_eqb_eq in E; subst.
    exfalso; apply Hm; apply (in_map fst) in Hin; assumption.
Qed.

Lemma subst_name_other (a b n : str) : n <> a -> subst_name a b n = n.
Proof. unfold subst_name; intros H; apply str_eqb_neq in H; rewrite H; reflexivity. Qed.

Lemma subst_name_same (a b : str) : subst_name a b a = b.
Proof. unfold subst_name; rewrite str_eqb_refl; reflexivity. Qed.

Lemma map_subst_id (a b : str) (l : list str) :
  ~ In a l -> map (subst_name a b) l = l.
Proof.
  induction l as [|n t IH]; simpl; intros H; [reflexivity|].
  rewrite subst_name_other by (intros ->; tauto).
  rewrite IH by tauto; reflexivity.
Qed.

Lemma replace_name_snd (a b : str) (d : listing) :
  map snd (replace_name a b d) = map snd d.
Proof.
  induction d as [|[n x] t IH]; simpl; [reflexivity|].
  destruct (str_eqb n a); simpl; [|rewrite IH]; reflexivity.
Qed.

Lemma replace_name_names (a b : str) (d : listing) (m : str) :
  In m (map fst (replace_name a b d)) -> m = b \/ In m (map fst d).
Proof.
  induction d as [|[n x] t IH]; simpl; [tauto|].
  destruct (str_eqb n a); simpl; intros [E | H]; auto.
  destruct (IH H); auto.
Qed.

Lemma replace_name_NoDup (a b : str) (d : listing) :
  NoDup (map fst d) -> b = a \/ ~ In b (map fst d) ->
  NoDup (map fst (replace_name a b d)).
Proof.
  induction d as [|[n x] t IH]; simpl; intros Hnd Hb; [constructor|].
  inversion Hnd as [|? ? Hn Ht]; subst.
  destruct (str_eqb n a) eqn:E; simpl.
  - apply str_eqb_eq in E; subst; constructor; [|assumption].
    destruct Hb as [-> | Hb]; tauto.
  - apply str_eqb_neq in E; constructor.
    + intros H; apply replace_name_names in H as [-> | H]; [|contradiction].
      destruct Hb as [-> | Hb]; tauto.
    + apply IH; [assumption | tauto].
Qed.

(** The names of the entries of one kind after a rename. *)
Lemma replace_name_where (p : node -> bool) (a b : str) (d : listing) :
  NoDup (map fst d) ->
  map fst (filter (fun e => p (snd e)) (replace_name a b d))
    = map (subst_name a b) (map fst (filter (fun e => p (snd e)) d)).
Proof.
  induction d as [|[n x] t IH]; simpl; intros Hnd; [reflexivity|].
  inversion Hnd as [|? ? Hn Ht]; subst.
  destruct (str_eqb n a) eqn:E; simpl.
  - apply str_eqb_eq in E; subst.
    assert (Hid : map (subst_name a b) (map fst (filter (fun e => p (snd e)) t))
                  = map fst (filter (fun e => p (snd e)) t)).
    { apply map_subst_id; intros H; apply Hn.
      apply in_map_iff in H as (e & <- & He).
      apply filter_In in He as [He _]; apply in_map; assumption. }
    destruct (p x); simpl; rewrite ?subst_name_same, Hid; reflexivity.
  - apply str_eqb_neq in E.
    destruct (p x); simpl; rewrite ?subst_name_other, IH by assumption;
      reflexivity.
Qed.

Lemma lookup_replace_name_other (a b r : str) (d : listing) :
  r <> a -> r <> b -> lookup r (replace_name a b d) = lookup r d.
Proof.
  intros Ha Hb; induction d as [|[n x] t IH]; simpl; [reflexivity|].
  destruct (str_eqb n a) eqn:E; simpl.
  - apply str_eqb_eq in E; subst.
    replace (str_eqb b r) with false by (symmetry; apply str_eqb_neq; congruence).
    replace (str_eqb a r) with false by (symmetry; apply str_eqb_neq; congruence).
    reflexivity.
  - rewrite IH; reflexivity.
Qed.

Lemma lookup_replace_node_other (a r : str) (x : node) (d : listing) :
  r <> a -> lookup r (replace_node a x d) = lookup r d.
Proof.
  intros Ha; induction d as [|[n y] t IH]; simpl; [reflexivity|].
  destruct (str_eqb n a) eqn:E; simpl.
  - apply str_eqb_eq in E; subst.
    replace (str_eqb a r) with false by (symmetry; apply str_eqb_neq; congruence).
    reflexivity.
  - rewrite IH; reflexivity.
Qed.

Lemma NoDup_map_filter {A B : Type} (g : A -> B) (f : A -> bool) (l : list A) :
  NoDup (map g l) -> NoDup (map g (filter f l)).
Proof.
  induction l as [|x t IH]; simpl; intros H; [constructor|].
  inversion H as [|? ? Hx Ht]; subst.
  destruct (f x); simpl; [constructor|]; auto.
  intros Hin; apply Hx.
  apply in_map_iff in Hin as (y & <- & Hy).
  apply filter_In in Hy as [Hy _]; apply in_map; assumption.
Qed.

Lemma dir_names_lookup (d : listing) (n : str) :
  NoDup (map fst d) -> In n (dir_names d) ->
  exists i sub, lookup n d = Some (Dir i sub) /\ In (n, Dir i sub) d.
Proof.
  unfold dir_names; intros Hnd H.
  apply in_map_iff in H as ([m x] & <- & Hx).
  apply filter_In in Hx as [Hx Hd]; simpl in Hd.
  destruct x as [i | i sub]; [discriminate|].
  exists i, sub; split; [apply lookup_NoDup|]; assumption.
Qed.

Lemma file_names_lookup (d : listing) (n : str) :
  NoDup (map fst d) -> In n (file_names d) ->
  exists x, lookup n d = Some x /\ is_dir_node x = false.
Proof.
  unfold file_names; intros Hnd H.
  apply in_map_iff in H as ([m x] & <- & Hx).
  apply filter_In in Hx as [Hx Hd]; simpl in Hd.
  apply negb_true_iff in Hd.
  exists x; split; [apply lookup_NoDup|]; assumption.
Qed.

Lemma dir_not_file (d : listing) (n : str) :
  NoDup (map fst d) -> In n (dir_names d) -> ~ In n (file_names d).
Proof.
  intros Hnd Hd Hf.
  apply dir_names_lookup in Hd as (i & sub & Hl & _); [|assumption].
  apply file_names_lookup in Hf as (x & Hx & Hk); [|assumption].
  rewrite Hl in Hx; inversion Hx; subst; discriminate.
Qed.

Lemma list_assign_app {A : Type} (pre rest : list A) (d x : A) :
  list_assign (pre ++ d :: rest) (length pre) x = Done (pre ++ x :: rest).
Proof.
  induction pre as [|y pre IH]; simpl; [reflexivity|].
  rewrite IH; reflexivity.
Qed.

Lemma seen_replace_name (a b : str) (d : listing) (names : list str) :
  ~ In a names -> ~ In b names ->
  seen (replace_name a b d) names = seen d names.
Proof.
  intros Ha Hb; unfold seen; apply map_ext_in; intros r Hr.
  rewrite lookup_replace_name_other; [reflexivity | |]; intros ->; contradiction.
Qed.

(** Under its names the directory shows its nodes. *)
Lemma seen_where (p : node -> bool) (d : listing) :
  NoDup (map fst d) ->
  seen d (map fst (filter (fun e => p (snd e)) d))
    = map (fun x => Some (ino_of x)) (filter p (map snd d)).
Proof.
  intros Hnd; unfold seen.
  assert (H : forall l, incl l d ->
            map (fun n => option_map ino_of (lookup n d))
              (map fst (filter (fun e => p (snd e)) l))
            = map (fun x => Some (ino_of x)) (filter p (map snd l))).
  { induction l as [|[n x] t IH]; simpl; intros Hl; [reflexivity|].
    assert (Ht : incl t d) by (intros e He; apply Hl; right; assumption).
    destruct (p x); simpl; rewrite IH by assumption; [|reflexivity].
    rewrite (lookup_NoDup d n x Hnd) by (apply Hl; left; reflexivity).
    reflexivity. }
  apply H, incl_refl.
Qed.

(** ** The walk meets every entry *)

Section WalkSpec.

Variables (fix_ : bool) (prefix_len limit : Z).

Lemma visit_entry_spec (dirpath : list str) (name : str) (is_dir : bool)
    (w : world) (t : totals) (x : node) :
  lookup name (entries w) = Some x ->
  lenient fix_ limit (permits w) ->
  fits fix_ limit (length (entries w)) name = true ->
  exists new_name w' t',
    visit_entry dirpath name is_dir fix_ prefix_len (w, t)
      = Done (new_name, (w', t'))
    /\ entries w' = replace_name name new_name (entries w)
    /\ (new_name = name \/ ~ In new_name (map fst (entries w)))
    /\ map v_ino (t_visits t') = map v_ino (t_visits t) ++ [Some (ino_of x)]
    /\ permits w' = permits w.
Proof.
  intros Hx Hos Hfit.
  destruct (check_and_maybe_fix_total dirpath name is_dir fix_ prefix_len limit
              w x Hx Hos Hfit)
    as (e & wn & new_name & did & w' & Hc & He & Hn & Hp).
  unfold visit_entry; rewrite Hc; cbn [bind].
  eexists _, _, _; split; [reflexivity|].
  repeat split; try assumption.
  cbn [t_visits]; rewrite map_app; cbn [map v_ino]; rewrite Hx; reflexivity.
Qed.

(** The loop over the subdirectories: every name of the snapshot is
    visited, and the list the loop rewrites ends up holding the names the
    subdirectories bear after the renames. *)
Lemma dirs_loop_spec (dirpath : list str) :
  forall (rest pre : list str) (w : world) (t : totals),
    NoDup (map fst (entries w)) ->
    dir_names (entries w) = pre ++ rest ->
    lenient fix_ limit (permits w) ->
    Forall (fun n => fits fix_ limit (length (entries w)) n = true) rest ->
    exists w' t',
      dirs_loop dirpath fix_ prefix_len
        (combine (seq (length pre) (length rest)) rest) (pre ++ rest) (w, t)
        = Done (dir_names (entries w'), (w', t'))
      /\ NoDup (map fst (entries w'))
      /\ map snd (entries w') = map snd (entries w)
      /\ file_names (entries w') = file_names (entries w)
      /\ map v_ino (t_visits t') = map v_ino (t_visits t) ++ seen (entries w) rest
      /\ permits w' = permits w.
Proof.
  induction rest as [|d rest IH]; intros pre w t Hnd Hdn Hos Hfit.
  - exists w, t; cbn [length seq combine dirs_loop seen map].
    rewrite Hdn, !app_nil_r; repeat split; assumption.
  - cbn [length seq combine dirs_loop].
    assert (Hin : In d (dir_names (entries w))) by (rewrite Hdn; apply in_elt).
    destruct (dir_names_lookup _ _ Hnd Hin) as (i & sub & Hl & _).
    inversion Hfit as [|? ? Hfd Hfr]; subst.
    destruct (visit_entry_spec dirpath d true w t _ Hl Hos Hfd)
      as (new_name & w1 & t1 & Hv & He & Hnew & Hlog & Hp).
    rewrite Hv; cbn [bind]; rewrite list_assign_app; cbn [bind].
    assert (Hnd' : NoDup (pre ++ d :: rest))
      by (rewrite <- Hdn; apply NoDup_map_filter; assumption).
    apply NoDup_remove_2 in Hnd' as Hd.
    assert (Hd1 : ~ In d pre) by (intros H; apply Hd, in_or_app; auto).
    assert (Hd2 : ~ In d rest) by (intros H; apply Hd, in_or_app; auto).
    assert (Hnd1 : NoDup (map fst (entries w1))).
    { rewrite He; apply replace_name_NoDup; [assumption|].
      destruct Hnew; auto. }
    assert (Hdn1 : dir_names (entries w1) = (pre ++ [new_name]) ++ rest).
    { rewrite He; unfold dir_names.
      rewrite (replace_name_where is_dir_node) by assumption.
      fold (dir_names (entries w)); rewrite Hdn, map_app; cbn [map].
      rewrite subst_name_same, !map_subst_id by assumption.
      rewrite <- app_assoc; reflexivity. }
    assert (Hos1 : lenient fix_ limit (permits w1)) by (rewrite Hp; assumption).
    assert (Hfit1 : Forall (fun n => fits fix_ limit (length (entries w1)) n = true)
                      rest)
      by (rewrite He, replace_name_length; assumption).
    destruct (IH (pre ++ [new_name]) w1 t1 Hnd1 Hdn1 Hos1 Hfit1)
      as (w' & t' & Hloop & Hnd2 & Hsnd & Hfiles & Hlog2 & Hp2).
    rewrite length_app, Nat.add_1_r, <- app_assoc in Hloop.
    exists w', t'; split; [exact Hloop|].
    split; [assumption|].
    split; [rewrite Hsnd, He; apply replace_name_snd|].
    split; [|split; [|congruence]].
    + rewrite Hfiles, He; unfold file_names.
      rewrite (replace_name_where (fun x => negb (is_dir_node x))) by assumption.
      apply map_subst_id; apply dir_not_file; assumption.
    + rewrite Hlog2, Hlog, <- app_assoc; f_equal.
      cbn [seen map app]; rewrite Hl; cbn [option_map ino_of]; f_equal.
      rewrite He; apply seen_replace_name; [assumption|].
      destruct Hnew as [-> | Hnew]; [assumption|].
      intros H; apply Hnew.
      assert (H' : In new_name (dir_names (entries w)))
        by (rewrite Hdn; apply in_or_app; right; right; assumption).
      unfold dir_names in H'; apply in_map_iff in H' as (e & <- & H').
      apply filter_In in H' as [H' _]; apply in_map; assumption.
Qed.

(** The loop over the other entries. *)
Lemma files_loop_spec (dirpath : list str) :
  forall (rest : list str) (w : world) (t : totals),
    NoDup (map fst (entries w)) ->
    NoDup rest ->
    incl rest (file_names (entries w)) ->
    lenient fix_ limit (permits w) ->
    Forall (fun n => fits fix_ limit (length (entries w)) n = true) rest ->
    exists w' t',
      files_loop dirpath fix_ prefix_len rest (w, t) = Done (w', t')
      /\ NoDup (map fst (entries w'))
      /\ map snd (entries w') = map snd (entries w)
      /\ dir_names (entries w') = dir_names (entries w)
      /\ map v_ino (t_visits t') = map v_ino (t_visits t) ++ seen (entries w) rest
      /\ permits w' = permits w.
Proof.
  induction rest as [|f rest IH]; intros w t Hnd Hrest Hincl Hos Hfit.
  - exists w, t; cbn [files_loop seen map]; rewrite app_nil_r;
      repeat split; assumption.
  - cbn [files_loop].
    assert (Hin : In f (file_names (entries w))) by (apply Hincl; left; reflexivity).
    destruct (file_names_lookup _ _ Hnd Hin) as (x & Hl & _).
    inversion Hfit as [|? ? Hff Hfr]; subst.
    destruct (visit_entry_spec dirpath f false w t _ Hl Hos Hff)
      as (new_name & w1 & t1 & Hv & He & Hnew & Hlog & Hp).
    rewrite Hv; cbn [bind].
    inversion Hrest as [|? ? Hf Hrest']; subst.
    assert (Hnd1 : NoDup (map fst (entries w1))).
    { rewrite He; apply replace_name_NoDup; [assumption|].
      destruct Hnew; auto. }
    assert (Hfn : file_names (entries w1)
                  = map (subst_name f new_name) (file_names (entries w))).
    { rewrite He; unfold file_names.
      apply (replace_name_where (fun x => negb (is_dir_node x))); assumption. }
    assert (Hincl1 : incl rest (file_names (entries w1))).
    { intros r Hr; rewrite Hfn.
      rewrite <- (subst_name_other f new_name r) by (intros ->; contradiction).
      apply in_map, Hincl; right; assumption. }
    assert (Hos1 : lenient fix_ limit (permits w1)) by (rewrite Hp; assumption).
    assert (Hfit1 : Forall (fun n => fits fix_ limit (length (entries w1)) n = true)
                      rest)
      by (rewrite He, replace_name_length; assumption).
    destruct (IH w1 t1 Hnd1 Hrest' Hincl1 Hos1 Hfit1)
      as (w' & t' & Hloop & Hnd2 & Hsnd & Hdirs & Hlog2 & Hp2).
    exists w', t'; split; [exact Hloop|].
    split; [assumption|].
    split; [rewrite Hsnd, He; apply replace_name_snd|].
    split; [|split; [|congruence]].
    + rewrite Hdirs, He; unfold dir_names.
      rewrite (replace_name_where is_dir_node) by assumption.
      apply map_subst_id; intros H.
      apply (dir_not_file _ _ Hnd H Hin).
    + rewrite Hlog2, Hlog, <- app_assoc; f_equal.
      cbn [seen map app]; rewrite Hl; cbn [option_map]; f_equal.
      rewrite He; apply seen_replace_name; [assumption|].
      destruct Hnew as [-> | Hnew]; [assumption|].
      intros H; apply Hnew.
      assert (H' : In new_name (file_names (entries w)))
        by (apply Hincl; right; assumption).
      unfold file_names in H'; apply in_map_iff in H' as (e & <- & H').
      apply filter_In in H' as [H' _]; apply in_map; assumption.
Qed.

End WalkSpec.

(** ** Trees and the order of the walk *)

Lemma well_formed_inv (d : listing) :
  well_formed d = true ->
  NoDup (map fst d)
  /\ forall n i sub, In (n, Dir i sub) d -> well_formed sub = true.
Proof.
  unfold well_formed; rewrite andb_true_iff, distinct_NoDup, forallb_forall.
  intros [Hnd Hall]; split; [assumption|].
  intros n i sub Hin; apply (Hall _ Hin).
Qed.

Lemma depth_child (d : listing) (n : str) (i : nat) (sub : listing) :
  In (n, Dir i sub) d -> (S (depth sub) <= depth d)%nat.
Proof.
  intros Hin; unfold depth at 2.
  pose proof (proj1 (list_max_le (map (fun e => height (snd e)) d) _) (le_n _)) as H.
  rewrite Forall_forall in H.
  specialize (H (height (Dir i sub))).
  change (height (Dir i sub)) with (depth sub) in H.
  apply le_n_S, H.
  apply (in_map (fun e => height (snd e)) d (n, Dir i sub) Hin).
Qed.

Lemma lookup_where (p : node -> bool) (d : listing) :
  NoDup (map fst d) ->
  map (fun n => lookup n d) (map fst (filter (fun e => p (snd e)) d))
    = map Some (filter p (map snd d)).
Proof.
  intros Hnd.
  assert (H : forall l, incl l d ->
            map (fun n => lookup n d) (map fst (filter (fun e => p (snd e)) l))
            = map Some (filter p (map snd l))).
  { induction l as [|[n x] t IH]; simpl; intros Hl; [reflexivity|].
    assert (Ht : incl t d) by (intros e He; apply Hl; right; assumption).
    destruct (p x); simpl; rewrite IH by assumption; [|reflexivity].
    rewrite (lookup_NoDup d n x Hnd) by (apply Hl; left; reflexivity).
    reflexivity. }
  apply H, incl_refl.
Qed.

(** The order of the walk, told from the nodes of the directory. *)
Lemma walk_order_nodes (d : listing) :
  map Some (walk_order d)
    = map (fun x => Some (ino_of x)) (filter is_dir_node (map snd d))
      ++ map (fun x => Some (ino_of x))
           (filter (fun x => negb (is_dir_node x)) (map snd d))
      ++ concat (map below (map Some (filter is_dir_node (map snd d)))).
Proof.
  unfold walk_order; cbn [walk_order_node]; rewrite !map_app.
  f_equal; [|f_equal].
  - induction d as [|[n x] t IH]; simpl; [reflexivity|].
    destruct (is_dir_node x); simpl; rewrite IH; reflexivity.
  - induction d as [|[n x] t IH]; simpl; [reflexivity|].
    destruct (is_dir_node x); simpl; rewrite IH; reflexivity.
  - induction d as [|[n x] t IH]; simpl; [reflexivity|].
    rewrite map_app, IH; destruct x; reflexivity.
Qed.

Lemma filter_split {A : Type} (p : A -> bool) (l : list A) :
  Permutation (filter p l ++ filter (fun x => negb (p x)) l) l.
Proof.
  induction l as [|x t IH]; simpl; [constructor|].
  destruct (p x); simpl.
  - constructor; assumption.
  - apply Permutation_sym, Permutation_cons_app, Permutation_sym; assumption.
Qed.

Lemma inos_walk_order_bounded (k : nat) :
  forall n, (height n <= k)%nat ->
    Permutation (inos n) (ino_of n :: walk_order_node n).
Proof.
  induction k as [|k IH]; intros [i | i ch] Hh; simpl in Hh;
    try reflexivity; [lia|].
  apply le_S_n in Hh.
  cbn [inos ino_of walk_order_node]; constructor.
  assert (Hch : forall e, In e ch ->
            Permutation (inos (snd e)) (ino_of (snd e) :: walk_order_node (snd e))).
  { intros e He; apply IH.
    pose proof (proj1 (list_max_le (map (fun e => height (snd e)) ch) _) Hh) as H.
    rewrite Forall_forall in H; apply H.
    apply (in_map (fun e => height (snd e)) ch e He). }
  rewrite app_assoc.
  transitivity (map (fun e => ino_of (snd e)) ch
                ++ flat_map (fun e => walk_order_node (snd e)) ch).
  - clear Hh; induction ch as [|e t IHt]; simpl; [constructor|].
    rewrite (Hch e) by (left; reflexivity); simpl; constructor.
    rewrite IHt by (intros e' He'; apply Hch; right; assumption).
    rewrite !app_assoc; apply Permutation_app_tail, Permutation_app_comm.
  - apply Permutation_app_tail.
    rewrite <- map_app; apply Permutation_map, Permutation_sym.
    apply (filter_split (fun e => is_dir_node (snd e))).
Qed.

(** The order of the walk lists every identity of the tree once. *)
Lemma walk_order_all (d : listing) : Permutation (walk_order d) (all_inos d).
Proof.
  pose proof (inos_walk_order_bounded _ (Dir 0 d) (le_n _)) as H.
  cbn [inos ino_of] in H; apply Permutation_cons_inv in H.
  symmetry; exact H.
Qed.

Lemma roomy_inv (fix_ : bool) (limit : Z) (d : listing) :
  roomy fix_ limit d = true ->
  Forall (fun n => fits fix_ limit (length d) n = true) (map fst d)
  /\ forall n i sub, In (n, Dir i sub) d -> roomy fix_ limit sub = true.
Proof.
  unfold roomy; rewrite forallb_forall; intros H; split.
  - apply Forall_forall; intros n Hn.
    apply in_map_iff in Hn as (e & <- & He).
    apply H, andb_true_iff in He as [He _]; assumption.
  - intros n i sub Hin.
    apply H, andb_true_iff in Hin as [_ Hin]; exact Hin.
Qed.

Lemma Forall_names_where (P : str -> Prop) (p : node -> bool) (d : listing) :
  Forall P (map fst d) -> Forall P (map fst (filter (fun e => p (snd e)) d)).
Proof.
  rewrite !Forall_forall; intros H n Hn; apply H.
  apply in_map_iff in Hn as (e & <- & He).
  apply filter_In in He as [He _]; apply in_map; assumption.
Qed.

Section WalkComplete.

Variables (fix_ : bool) (prefix_len limit : Z) (os : policy).

Hypothesis os_lenient : lenient fix_ limit os.

(** The body of the loop, run on the names of a directory: it returns,
    and the list of subdirectories it leaves holds the names the
    subdirectories bear by then. *)
Lemma validate_body_spec (dirpath : list str) (d : listing)
    (c : list syscall) (t : totals) :
  NoDup (map fst d) ->
  Forall (fun n => fits fix_ limit (length d) n = true) (map fst d) ->
  exists w' t',
    validate_body fix_ prefix_len dirpath (dir_names d) (file_names d)
      (mk_world d c os, t) = Done (dir_names (entries w'), (w', t'))
    /\ NoDup (map fst (entries w'))
    /\ map snd (entries w') = map snd d
    /\ map v_ino (t_visits t')
       = map v_ino (t_visits t)
         ++ map (fun x => Some (ino_of x)) (filter is_dir_node (map snd d))
         ++ map (fun x => Some (ino_of x))
              (filter (fun x => negb (is_dir_node x)) (map snd d))
    /\ permits w' = os.
Proof.
  intros Hnd Hfit; unfold validate_body, enumerate.
  destruct (dirs_loop_spec fix_ prefix_len limit dirpath (dir_names d) []
              (mk_world d c os) t Hnd eq_refl os_lenient)
    as (w1 & t1 & Hd & Hnd1 & Hs1 & Hf1 & Hl1 & Hp1).
  { apply (Forall_names_where _ is_dir_node); assumption. }
  cbn [app length entries permits] in *; rewrite Hd; cbn [bind].
  assert (Hnf : NoDup (file_names d))
    by (apply NoDup_map_filter; assumption).
  assert (Hlen : length (entries w1) = length d).
  { rewrite <- (length_map snd (entries w1)), Hs1; apply length_map. }
  destruct (files_loop_spec fix_ prefix_len limit dirpath (file_names d) w1 t1
              Hnd1 Hnf)
    as (w2 & t2 & Hf & Hnd2 & Hs2 & Hd2 & Hl2 & Hp2).
  { rewrite Hf1; apply incl_refl. }
  { rewrite Hp1; exact os_lenient. }
  { rewrite Hlen.
    apply (Forall_names_where _ (fun x => negb (is_dir_node x))); assumption. }
  rewrite Hf; cbn [bind]; exists w2, t2.
  split; [rewrite Hd2; reflexivity|].
  split; [assumption|].
  split; [congruence|].
  split; [|congruence].
  rewrite Hl2, Hl1, <- app_assoc; f_equal; f_equal.
  - apply (seen_where is_dir_node); assumption.
  - rewrite <- Hf1, <- Hs1.
    apply (seen_where (fun x => negb (is_dir_node x))); assumption.
Qed.

(** The descent: a walk that meets everything below each subdirectory
    makes the descent meet everything below the names it is given. *)
Lemma descend_spec (walk_dir : list str -> state -> outcome state) (top : list str) :
  forall (ds : list str) (w : world) (t : totals),
    NoDup ds ->
    permits w = os ->
    (forall d, In d ds ->
       exists i sub,
         lookup d (entries w) = Some (Dir i sub)
         /\ forall p c t0, exists w1 t1,
              walk_dir p (mk_world sub c os, t0) = Done (w1, t1)
              /\ map v_ino (t_visits t1)
                 = map v_ino (t_visits t0) ++ map Some (walk_order sub)) ->
    exists w' t',
      descend walk_dir top ds (w, t) = Done (w', t')
      /\ map v_ino (t_visits t')
         = map v_ino (t_visits t)
           ++ concat (map below (map (fun d => lookup d (entries w)) ds)).
Proof.
  induction ds as [|d ds IH]; intros w t Hnd Hp Hall.
  - exists w, t; cbn [descend map concat]; rewrite app_nil_r; auto.
  - cbn [descend].
    destruct (Hall d (or_introl eq_refl)) as (i & sub & Hl & Hw); rewrite Hl, Hp.
    destruct (Hw (top ++ [d]) (calls w) t) as (w1 & t1 & Hrun & Hlog).
    rewrite Hrun; cbn [bind].
    inversion Hnd as [|? ? Hd Hnd']; subst.
    set (w2 := mk_world (replace_node d (Dir i (entries w1)) (entries w)) (calls w1)
                 (permits w)).
    assert (Hsame : forall r, In r ds -> lookup r (entries w2) = lookup r (entries w)).
    { intros r Hr; apply lookup_replace_node_other; intros ->; contradiction. }
    destruct (IH w2 t1 Hnd' eq_refl) as (w' & t' & Hrest & Hlog2).
    { intros r Hr; rewrite (Hsame r Hr); apply Hall; right; assumption. }
    exists w', t'; split; [exact Hrest|].
    rewrite Hlog2, Hlog, <- app_assoc; f_equal.
    cbn [map concat]; rewrite Hl; cbn [below]; f_equal.
    f_equal; f_equal; apply map_ext_in; assumption.
Qed.

(** A walk with fuel for the depth of a tree whose directories hold no
    name twice, and in which every rename the walk can ask for is to a
    name the operating system takes, returns, and it has visited the
    entries of the tree in the order of the walk. *)
Lemma os_walk_spec (fuel : nat) :
  forall d : listing,
    (depth d <= fuel)%nat -> well_formed d = true ->
    roomy fix_ limit d = true ->
    forall top c t, exists w' t',
      os_walk fuel (validate_body fix_ prefix_len) top (mk_world d c os, t)
        = Done (w', t')
      /\ map v_ino (t_visits t')
         = map v_ino (t_visits t) ++ map Some (walk_order d).
Proof.
  induction fuel as [|fuel IH]; intros d Hdepth Hwf Hroom top c t;
    [unfold depth in Hdepth; lia|].
  destruct (well_formed_inv _ Hwf) as [Hnd Hsub].
  destruct (roomy_inv _ _ _ Hroom) as [Hfit Hrsub].
  cbn [os_walk fst entries].
  destruct (validate_body_spec top d c t Hnd Hfit)
    as (w1 & t1 & Hb & Hnd1 & Hs1 & Hl1 & Hp1).
  rewrite Hb; cbn [bind].
  destruct (descend_spec (os_walk fuel (validate_body fix_ prefix_len)) top
              (dir_names (entries w1)) w1 t1) as (w2 & t2 & Hd & Hl2).
  { apply NoDup_map_filter; assumption. }
  { assumption. }
  { intros n Hn.
    destruct (dir_names_lookup _ _ Hnd1 Hn) as (i & sub & Hl & Hin).
    exists i, sub; split; [assumption|].
    apply (in_map snd) in Hin; rewrite Hs1 in Hin; cbn [snd] in Hin.
    apply in_map_iff in Hin as ([m x] & Hx & Hin); cbn [snd] in Hx; subst x.
    apply IH; [|apply (Hsub _ _ _ Hin) | apply (Hrsub _ _ _ Hin)].
    apply depth_child in Hin; lia. }
  exists w2, t2; split; [assumption|].
  rewrite Hl2, Hl1, walk_order_nodes, <- !app_assoc.
  do 3 f_equal.
  unfold dir_names; rewrite (lookup_where is_dir_node) by assumption.
  rewrite Hs1; reflexivity.
Qed.

End WalkComplete.

(** ** Claim on the traversal *)




(** ** Scenarios *)

(** A name made of one zero-width character becomes the placeholder, as
    do the empty name and a name made of spaces and periods. *)
Example placeholder_names :
  make_safe_name [0x200B%N] = py "_"
  /\ make_safe_name [] = py "_"
  /\ make_safe_name (py " . .") = py "_".
Proof. repeat split; vm_compute; reflexivity. Qed.

(** [My File#1.txt] without fix mode: one warning, no error, no
    rename. *)
Example problematic_char_reported :
  check_and_maybe_fix [] (py "My File#1.txt") false false 0
    (mk_world [(py "My File#1.txt", File 1)] [] (name_limit 255))
  = Done (0, 1, py "My File#1.txt", false,
          mk_world [(py "My File#1.txt", File 1)] [] (name_limit 255)).
Proof. vm_compute; reflexivity. Qed.

(** [My File#1.txt] in fix mode becomes [My File_1.txt], and
    [My File_1_1.txt] when that name is taken. *)
Example problematic_char_fixed :
  check_and_maybe_fix [] (py "My File#1.txt") false true 0
    (mk_world [(py "My File#1.txt", File 1)] [] (name_limit 255))
  = Done (0, 1, py "My File_1.txt", true,
          mk_world [(py "My File_1.txt", File 1)]
            [Rename [] (py "My File#1.txt") (py "My File_1.txt")] (name_limit 255))
  /\ check_and_maybe_fix [] (py "My File#1.txt") false true 0
       (mk_world [(py "My File#1.txt", File 1); (py "My File_1.txt", File 2)] []
          (name_limit 255))
     = Done (0, 1, py "My File_1_1.txt", true,
             mk_world [(py "My File_1_1.txt", File 1); (py "My File_1.txt", File 2)]
               [Rename [] (py "My File#1.txt") (py "My File_1_1.txt")]
               (name_limit 255)).
Proof. split; vm_compute; reflexivity. Qed.

(** The directory [~backup] is renamed to [_backup], and what it holds
    is visited under the new path. *)
Example renamed_directory_entered :
  exists code w t,
    validate 3 (name_limit 255) sample_tree true 0 = Done (code, w, t)
    /\ map fst (entries w)
       = [py "My File_1_1.txt"; py "My File_1.txt"; py "_backup"]
    /\ map (fun v => (v_dirpath v, v_name v)) (t_visits t)
       = [ ([], py "~backup"); ([], py "My File#1.txt"); ([], py "My File_1.txt");
           ([py "_backup"], py "a#"); ([py "_backup"], py "CON.txt");
           ([py "_backup"; py "a_"], py "x ") ]
    /\ t_renames t = 5.
Proof.
  eexists _, _, _; split; [vm_compute; reflexivity|].
  repeat split; vm_compute; reflexivity.
Qed.

(** An effective path length of 410 is an error that no fix removes: the
    entry keeps its name and the run returns 1. *)
Example long_path_not_fixed :
  check_and_maybe_fix [] (py "notes.txt") false true 401
    (mk_world [(py "notes.txt", File 1)] [] (name_limit 255))
  = Done (1, 0, py "notes.txt", false,
          mk_world [(py "notes.txt", File 1)] [] (name_limit 255))
  /\ exists w t, validate 1 (name_limit 255) [(py "notes.txt", File 1)] true 401 = Done (1, w, t).
Proof.
  split; [vm_compute; reflexivity|].
  eexists _, _; vm_compute; reflexivity.
Qed.

(** * Further properties of the code *)

(** ** The reports of the rule engine *)

Lemma insert_uniq_In (c x : char) (l : list char) :
  In x (insert_uniq c l) <-> x = c \/ In x l.
Proof.
  induction l as [|y t IH]; simpl; [intuition congruence|].
  destruct (N.ltb c y) eqn:E1; simpl; [intuition congruence|].
  destruct (N.eqb c y) eqn:E2; simpl.
  - apply N.eqb_eq in E2; subst; intuition congruence.
  - rewrite IH; intuition congruence.
Qed.

Lemma insert_uniq_sorted (c : char) (l : list char) :
  StronglySorted N.lt l -> StronglySorted N.lt (insert_uniq c l).
Proof.
  induction 1 as [|y t Ht IH Hy]; simpl; [repeat constructor|].
  destruct (N.ltb c y) eqn:E1.
  - apply N.ltb_lt in E1; constructor; [constructor; assumption|].
    constructor; [assumption|].
    eapply Forall_impl; [|exact Hy]; cbv beta; intros z Hz.
    eapply N.lt_trans; eassumption.
  - destruct (N.eqb c y) eqn:E2; [constructor; assumption|].
    apply N.ltb_ge in E1; apply N.eqb_neq in E2.
    constructor; [assumption|].
    rewrite Forall_forall in *; intros z Hz.
    apply insert_uniq_In in Hz as [-> | Hz]; [lia | apply Hy; assumption].
Qed.

Lemma sorted_set_In (x : char) (l : list char) : In x (sorted_set l) <-> In x l.
Proof.
  induction l as [|c t IH]; simpl; [tauto|].
  rewrite insert_uniq_In, IH; intuition congruence.
Qed.

Lemma sorted_set_sorted (l : list char) : StronglySorted N.lt (sorted_set l).
Proof.
  induction l as [|c t IH]; simpl; [constructor|].
  apply insert_uniq_sorted; assumption.
Qed.

(** X6: each of the four functions that collect offending characters
    returns exactly the characters of the name that offend, in strictly
    ascending order of code point, so each of them once. *)
Theorem offending_chars_reported (name : str) (c : char) :
  (In c (has_forbidden_chars name)
     <-> In c name /\ char_in c FORBIDDEN_CHARS = true)
  /\ (In c (has_problematic_chars name)
        <-> In c name /\ char_in c PROBLEMATIC_CHARS = true)
  /\ (In c (has_control_chars name) <-> In c name /\ is_control c = true)
  /\ (In c (has_zero_width_or_rtl name)
        <-> In c name /\ is_zero_width_or_rtl c = true)
  /\ StronglySorted N.lt (has_forbidden_chars name)
  /\ StronglySorted N.lt (has_problematic_chars name)
  /\ StronglySorted N.lt (has_control_chars name)
  /\ StronglySorted N.lt (has_zero_width_or_rtl name).
Proof.
  unfold has_forbidden_chars, has_problematic_chars, has_control_chars,
    has_zero_width_or_rtl.
  rewrite !sorted_set_In, !filter_In.
  repeat split; try tauto; apply sorted_set_sorted.
Qed.

Lemma split_head_stop (c : char) (a b : str) :
  split_head c (split_head c a ++ c :: b) = split_head c a.
Proof.
  rewrite split_head_app by apply split_head_free.
  simpl; rewrite N.eqb_refl; apply app_nil_r.
Qed.

(** X7: whether a name is reserved depends on the part before its first
    period only: whatever follows that part after a period, the answer
    is the same, and it is the answer for that part alone. *)
Theorem reserved_whatever_extension (name rest : str) :
  is_reserved_name (split_head 46%N name ++ 46%N :: rest) = is_reserved_name name
  /\ is_reserved_name (split_head 46%N name) = is_reserved_name name.
Proof.
  unfold is_reserved_name; cbv zeta; split.
  - rewrite split_head_stop; reflexivity.
  - replace (split_head 46%N (split_head 46%N name)) with (split_head 46%N name);
      [reflexivity|].
    rewrite <- (app_nil_r (split_head 46%N name)) at 2.
    rewrite split_head_app by apply split_head_free.
    simpl; rewrite app_nil_r; reflexivity.
Qed.

(** X11: an entry counts no error and no warning exactly when its
    effective path length is at most 400 and no check fires on its name;
    an entry counts at most seven errors and two warnings, and the counts
    are the same in fix mode as without. *)
Theorem clean_entry_iff (basename rel_path : str) (fix_ : bool) (prefix_len : Z) :
  (fst (classify basename rel_path fix_ prefix_len) = (0, 0)
     <-> prefix_len + len rel_path <= MAX_PATH_LEN /\ compliant basename = true)
  /\ 0 <= fst (fst (classify basename rel_path fix_ prefix_len)) <= 7
  /\ 0 <= snd (fst (classify basename rel_path fix_ prefix_len)) <= 2
  /\ fst (classify basename rel_path true prefix_len)
     = fst (classify basename rel_path false prefix_len).
Proof.
  rewrite !classify_eq; cbn [fst snd].
  unfold compliant, no_violation, no_bad_chars.
  destruct (Z.ltb_spec MAX_PATH_LEN (prefix_len + len rel_path)) as [Hp | Hp];
  destruct (Z.ltb_spec MAX_NAME_LEN (len basename)) as [Hl | Hl];
  destruct (Z.leb_spec (len basename) MAX_NAME_LEN) as [Hl' | Hl']; try lia;
  destruct (is_nil (has_forbidden_chars basename));
  destruct (endswith basename 32%N || endswith basename 46%N);
  destruct (is_reserved_name basename);
  destruct (is_nil (has_control_chars basename));
  destruct (is_nil (has_zero_width_or_rtl basename));
  destruct (is_nil (has_problematic_chars basename));
  destruct (startswith basename 126%N); cbn;
  (split; [split; [intros H; first [discriminate H | split; [lia | reflexivity]]
                  | intros [H1 H2]; first [discriminate H2 | lia | reflexivity]]
          | repeat split; lia]).
Qed.

(** ** The name [get_unique_name] picks *)

Lemma unique_loop_least (fuel : nat) (d : listing) (desired : str) :
  forall (cand : str) (k : nat) (c : str),
    unique_loop fuel d desired cand k = Done c ->
    (path_exists d cand = false /\ c = cand)
    \/ (path_exists d cand = true
        /\ exists j, (k <= j)%nat /\ c = numbered desired j
             /\ forall i, (k <= i < j)%nat ->
                  path_exists d (numbered desired i) = true).
Proof.
  induction fuel as [|fuel IH]; intros cand k c; simpl;
    destruct (path_exists d cand) eqn:E; try discriminate.
  - intros H; inversion H; auto.
  - intros H; right; split; [reflexivity|].
    assert (Hn : numbered desired k
                 = (let '(root, ext) := splitext desired in
                    root ++ py "_" ++ str_of_nat k ++ ext)) by reflexivity.
    destruct (splitext desired) as [root ext].
    apply IH in H as [(Hf & ->) | (Ht & j & Hj & -> & Hall)].
    + exists k; split; [lia|]; split; [symmetry; exact Hn|].
      intros i Hi; lia.
    + exists j; split; [lia|]; split; [reflexivity|].
      intros i Hi; destruct (Nat.eq_dec i k) as [-> | Hne].
      * rewrite Hn; exact Ht.
      * apply Hall; lia.
  - intros H; inversion H; auto.
Qed.

(** X1: [get_unique_name] always returns, the name it returns is the
    name of no entry of the directory, and it is the desired name itself
    exactly when that name is free. *)
Theorem get_unique_name_is_free (d : listing) (desired : str) :
  exists c,
    get_unique_name d desired = Done c
    /\ path_exists d c = false
    /\ ~ In c (map fst d)
    /\ (c = desired <-> path_exists d desired = false).
Proof.
  destruct (get_unique_name_total d desired) as (c & Hc & Hfree).
  exists c; split; [assumption|]; split; [assumption|].
  split; [apply path_exists_not_In; assumption|].
  split; [intros <-; assumption|].
  intros H; rewrite (get_unique_name_free _ _ H) in Hc.
  inversion Hc; reflexivity.
Qed.

(** X2: when the desired name is taken, [get_unique_name] returns the
    root of the desired name, an underscore, a counter and the extension
    of the desired name, the counter being the least one from 1 on that
    gives a free name; it is at most the number of entries plus one. *)
Theorem get_unique_name_least_counter (d : listing) (desired : str) :
  path_exists d desired = true ->
  exists k,
    (1 <= k <= S (length d))%nat
    /\ get_unique_name d desired
       = Done (fst (splitext desired) ++ py "_" ++ str_of_nat k
               ++ snd (splitext desired))
    /\ path_exists d (numbered desired k) = false
    /\ forall i, (1 <= i < k)%nat -> path_exists d (numbered desired i) = true.
Proof.
  intros Hd.
  destruct (get_unique_name_total d desired) as (c & Hc & Hfree).
  pose proof Hc as Hl; unfold get_unique_name in Hl.
  apply unique_loop_least in Hl as [(Hf & _) | (_ & k & Hk & -> & Hall)];
    [congruence|].
  exists k.
  assert (Hle : (k <= S (length d))%nat).
  { destruct (Nat.le_gt_cases k (S (length d))) as [H | H]; [assumption|].
    exfalso.
    assert (Hn : NoDup (map (numbered desired) (seq 1 (S (length d))))).
    { apply NoDup_map_inj; [apply numbered_inj | apply seq_NoDup]. }
    apply (NoDup_incl_length (l' := map fst d)) in Hn.
    - rewrite !length_map, length_seq in Hn; lia.
    - intros x Hx; apply in_map_iff in Hx as (j & <- & Hj).
      apply in_seq in Hj; apply path_exists_In, Hall; lia. }
  split; [lia|]; split; [|split; assumption].
  rewrite Hc; unfold numbered; destruct (splitext desired); reflexivity.
Qed.

Lemma get_unique_name_least_counter_witness :
  get_unique_name
    [(py "a_.txt", File 1); (py "a__1.txt", File 2); (py "a__3.txt", File 3)]
    (py "a_.txt")
  = Done (py "a__2.txt").
Proof.
  destruct (get_unique_name_least_counter
              [(py "a_.txt", File 1); (py "a__1.txt", File 2);
               (py "a__3.txt", File 3)] (py "a_.txt"))
    as (k & Hk & Hrun & Hfree & Hall); [reflexivity|].
  rewrite Hrun.
  assert (E : k = 2%nat).
  { destruct k as [|[|[|k]]]; try lia; try reflexivity.
    - vm_compute in Hfree; discriminate.
    - specialize (Hall 2%nat ltac:(lia)); vm_compute in Hall; discriminate. }
  subst k; reflexivity.
Defined.

(** ** A rename keeps the entry *)

Lemma lookup_replace_name_new (a b : str) (d : listing) (x : node) :
  lookup a d = Some x -> ~ In b (map fst d) ->
  lookup b (replace_name a b d) = Some x.
Proof.
  induction d as [|[n y] t IH]; simpl; [discriminate|].
  intros Hl Hb; destruct (str_eqb n a) eqn:E; simpl.
  - rewrite str_eqb_refl; assumption.
  - replace (str_eqb n b) with false
      by (symmetry; apply str_eqb_neq; intros ->; tauto).
    apply IH; [assumption | tauto].
Qed.

Lemma lookup_replace_name_old (a b : str) (d : listing) :
  NoDup (map fst d) -> a <> b -> lookup a (replace_name a b d) = None.
Proof.
  induction d as [|[n y] t IH]; simpl; intros Hnd Hab; [reflexivity|].
  inversion Hnd as [|? ? Hn Ht]; subst.
  destruct (str_eqb n a) eqn:E; simpl.
  - apply str_eqb_eq in E; subst.
    replace (str_eqb b a) with false
      by (symmetry; apply str_eqb_neq; congruence).
    apply lookup_None; assumption.
  - rewrite E; apply IH; assumption.
Qed.



(** ** What a run keeps and what it counts *)

Lemma well_formed_nodes (d : listing) :
  well_formed d = distinct (map fst d) && forallb names_distinct (map snd d).
Proof.
  unfold well_formed; f_equal.
  induction d as [|e t IH]; simpl; [reflexivity | rewrite IH; reflexivity].
Qed.

Lemma shapes_nodes (d : listing) : shapes d = map shape_of (map snd d).
Proof. unfold shapes; rewrite map_map; reflexivity. Qed.

Lemma os_rename_inv (dirpath : list str) (src dst : str) (w w' : world) :
  os_rename dirpath src dst w = Done w' ->
  path_exists (entries w) dst = false ->
  entries w' = replace_name src dst (entries w).
Proof.
  intros H Hd.
  assert (Hs : exists x, lookup src (entries w) = Some x).
  { unfold os_rename in H.
    destruct (lookup src (entries w)) as [x|]; [eauto | discriminate]. }
  destruct Hs as (x & Hs).
  destruct (os_rename_logs _ _ _ _ _ H) as (_ & _ & Hp).
  rewrite (os_rename_free _ _ _ _ _ Hs Hd Hp) in H; inversion H; reflexivity.
Qed.

Lemma replace_node_fst (a : str) (x : node) (d : listing) :
  map fst (replace_node a x d) = map fst d.
Proof.
  induction d as [|[n y] t IH]; simpl; [reflexivity|].
  destruct (str_eqb n a); simpl; [|rewrite IH]; reflexivity.
Qed.

Lemma replace_node_shapes (a : str) (x y : node) (d : listing) :
  lookup a d = Some x -> shape_of y = shape_of x ->
  shapes (replace_node a y d) = shapes d.
Proof.
  intros Hl Hs; induction d as [|[n z] t IH]; simpl in *; [reflexivity|].
  destruct (str_eqb n a); simpl.
  - inversion Hl; subst; rewrite Hs; reflexivity.
  - rewrite IH by assumption; reflexivity.
Qed.

Lemma replace_node_distinct (a : str) (y : node) (d : listing) :
  forallb names_distinct (map snd d) = true -> names_distinct y = true ->
  forallb names_distinct (map snd (replace_node a y d)) = true.
Proof.
  intros Hd Hy; induction d as [|[n z] t IH]; simpl in *; [reflexivity|].
  apply andb_true_iff in Hd as [Hz Ht].
  destruct (str_eqb n a); simpl; rewrite ?Hy, ?Hz; simpl; auto.
Qed.

Lemma kept_refl (st : state) : kept st st.
Proof. split; auto. Qed.

Lemma kept_trans (a b c : state) : kept a b -> kept b c -> kept a c.
Proof. intros [H1 H2] [H3 H4]; split; [congruence | auto]. Qed.

Lemma kept_visit (fix_ : bool) (prefix_len : Z) (dirpath : list str)
    (name : str) (is_dir : bool) (st : state) (new_name : str) (st' : state) :
  visit_entry dirpath name is_dir fix_ prefix_len st = Done (new_name, st') ->
  kept st st'.
Proof.
  destruct st as [w t]; intros H.
  apply visit_entry_inv in H as (e & wn & did & w' & Hc & ->).
  apply check_and_maybe_fix_inv in Hc
    as (_ & [(_ & _ & ->) | (_ & _ & _ & Hne & Hu & Hr)]);
    [split; cbn [fst]; auto|].
  apply get_unique_name_done in Hu.
  apply os_rename_inv in Hr; [|assumption].
  unfold kept; cbn [fst]; rewrite Hr, !shapes_nodes, !well_formed_nodes.
  rewrite replace_name_snd; split; [reflexivity|].
  rewrite !andb_true_iff, !distinct_NoDup; intros [Hnd Hall]; split; [|assumption].
  apply replace_name_NoDup; [assumption|].
  right; apply path_exists_not_In; assumption.
Qed.

Lemma kept_descend (w : world) (t : totals) (dirname : str) (i : nat)
    (sub : listing) (w1 : world) (t1 : totals) :
  lookup dirname (entries w) = Some (Dir i sub) ->
  kept (mk_world sub (calls w) (permits w), t) (w1, t1) ->
  kept (w, t)
    (mk_world (replace_node dirname (Dir i (entries w1)) (entries w)) (calls w1)
       (permits w), t1).
Proof.
  intros Hl [Hs Hw]; unfold kept in *; cbn [fst entries] in *; split.
  - apply (replace_node_shapes _ _ _ _ Hl); cbn [shape_of].
    fold (shapes (entries w1)); fold (shapes sub); rewrite Hs; reflexivity.
  - rewrite !well_formed_nodes, replace_node_fst, !andb_true_iff.
    intros [Hnd Hall]; split; [assumption|].
    apply replace_node_distinct; [assumption|].
    apply Hw.
    rewrite forallb_forall in Hall.
    apply lookup_In in Hl; apply (in_map snd) in Hl.
    apply (Hall _ Hl).
Qed.



Lemma sum_of_app (f : visit -> Z) (a b : list visit) :
  sum_of f (a ++ b) = sum_of f a + sum_of f b.
Proof. induction a as [|v a IH]; simpl; [reflexivity | rewrite IH; lia]. Qed.

Lemma sum_of_nonneg (f : visit -> Z) (vs : list visit) :
  Forall (fun v => 0 <= f v) vs -> 0 <= sum_of f vs.
Proof. induction 1; simpl; lia. Qed.

Lemma sum_of_zero (f : visit -> Z) (vs : list visit) :
  Forall (fun v => 0 <= f v) vs ->
  (sum_of f vs = 0 <-> Forall (fun v => f v = 0) vs).
Proof.
  induction 1 as [|v vs Hv Hvs IH]; simpl.
  - split; [constructor | reflexivity].
  - pose proof (sum_of_nonneg f vs Hvs) as Hs; split.
    + intros H; constructor; [lia | apply IH; lia].
    + intros H; inversion H as [|? ? H1 H2]; subst.
      apply IH in H2; lia.
Qed.

Lemma tallied_refl (st : state) : tallied st st.
Proof.
  exists [], []; rewrite !app_nil_r; simpl; repeat split; try lia; constructor.
Qed.

Lemma tallied_trans (a b c : state) : tallied a b -> tallied b c -> tallied a c.
Proof.
  intros (vs1 & cs1 & Hv1 & Hc1 & He1 & Hw1 & Hr1 & Hn1 & Hp1)
         (vs2 & cs2 & Hv2 & Hc2 & He2 & Hw2 & Hr2 & Hn2 & Hp2).
  exists (vs1 ++ vs2), (cs1 ++ cs2).
  rewrite Hv2, Hv1, Hc2, Hc1, !app_assoc, !sum_of_app, filter_app, !length_app.
  repeat split; try lia.
  apply Forall_app; split; assumption.
Qed.

Lemma tallied_visit (fix_ : bool) (prefix_len : Z) (dirpath : list str)
    (name : str) (is_dir : bool) (st : state) (new_name : str) (st' : state) :
  visit_entry dirpath name is_dir fix_ prefix_len st = Done (new_name, st') ->
  tallied st st'.
Proof.
  destruct st as [w t]; intros H.
  apply visit_entry_inv in H as (e & wn & did & w' & Hc & ->).
  apply check_and_maybe_fix_inv in Hc as (Hcl & Hcase).
  assert (He : 0 <= e).
  { replace e with (fst (fst (classify name (path_join (dirpath ++ [name]))
                                fix_ prefix_len)))
      by (rewrite <- Hcl; reflexivity).
    apply classify_errors_nonneg. }
  destruct Hcase as [(-> & -> & ->) | (-> & _ & _ & _ & _ & Hr)].
  - exists [mk_visit (option_map ino_of (lookup name (entries w))) dirpath name
              is_dir (prefix_len + len (path_join (dirpath ++ [name])))
              e wn name false], [].
    cbn; rewrite app_nil_r; repeat split; try lia.
    repeat constructor; assumption.
  - apply os_rename_logs in Hr as [Hr _].
    exists [mk_visit (option_map ino_of (lookup name (entries w))) dirpath name
              is_dir (prefix_len + len (path_join (dirpath ++ [name])))
              e wn new_name true], [Rename dirpath name new_name].
    cbn; repeat split; try assumption; try lia.
    repeat constructor; assumption.
Qed.

Lemma tallied_descend (w : world) (t : totals) (dirname : str) (i : nat)
    (sub : listing) (w1 : world) (t1 : totals) :
  lookup dirname (entries w) = Some (Dir i sub) ->
  tallied (mk_world sub (calls w) (permits w), t) (w1, t1) ->
  tallied (w, t)
    (mk_world (replace_node dirname (Dir i (entries w1)) (entries w)) (calls w1)
       (permits w), t1).
Proof. intros _ H; exact H. Qed.

(** X5: at the end of a run that returns, the three totals are what the
    visits reported: the errors and the warnings are the sums over the
    visits, and the count of renames is the number of [os.rename] calls
    issued, one for each visit that reports a rename.  The status
    returned is 0 or 1, and it is 0 exactly when no visit counted an
    error. *)
Theorem validate_totals (fuel : nat) (os : policy) (root : listing) (fix_ : bool)
    (prefix_len : Z) (code : Z) (w : world) (t : totals) :
  validate fuel os root fix_ prefix_len = Done (code, w, t) ->
  t_errors t = sum_of v_errors (t_visits t)
  /\ t_warnings t = sum_of v_warnings (t_visits t)
  /\ t_renames t = Z.of_nat (length (calls w))
  /\ length (calls w) = length (filter v_renamed (t_visits t))
  /\ (code = 0 \/ code = 1)
  /\ (code = 0 <-> Forall (fun v => v_errors v = 0) (t_visits t)).
Proof.
  intros H; apply validate_inv in H as [H ->].
  apply (os_walk_rel fix_ prefix_len tallied tallied_refl tallied_trans
           (tallied_visit fix_ prefix_len) tallied_descend) in H.
  destruct H as (vs & cs & Hv & Hc & He & Hw & Hr & Hn & Hp).
  cbn [fst snd t_visits t_errors t_warnings t_renames calls app] in *.
  subst vs cs.
  pose proof (sum_of_nonneg v_errors _ Hp) as H0.
  pose proof (sum_of_zero v_errors _ Hp) as Hz.
  repeat split; try lia.
  - destruct (0 <? t_errors t); auto.
  - destruct (Z.ltb_spec 0 (t_errors t)); [discriminate|].
    intros _; apply Hz; lia.
  - intros Hall; apply Hz in Hall.
    destruct (Z.ltb_spec 0 (t_errors t)); [lia | reflexivity].
Qed.

Lemma validate_totals_witness :
  exists code w t,
    validate 3 (name_limit 255) sample_tree true 0 = Done (code, w, t)
    /\ t_errors t = 2 /\ t_warnings t = 3 /\ t_renames t = 5
    /\ length (calls w) = 5%nat /\ code = 1.
Proof.
  eexists _, _, _; split; [vm_compute; reflexivity|].
  destruct (validate_totals 3%nat (name_limit 255) sample_tree true 0 _ _ _
              ltac:(vm_compute; reflexivity)) as (He & Hw & Hr & Hn & _).
  repeat split; reflexivity.
Defined.

(** ** A call that keeps the name *)

Lemma faithful_refl (st : state) : faithful st st.
Proof. exists []; rewrite app_nil_r; split; [reflexivity | constructor]. Qed.

Lemma faithful_trans (a b c : state) : faithful a b -> faithful b c -> faithful a c.
Proof.
  intros (vs1 & Hv1 & Hf1) (vs2 & Hv2 & Hf2); exists (vs1 ++ vs2); split.
  - rewrite Hv2, Hv1, app_assoc; reflexivity.
  - apply Forall_app; split; assumption.
Qed.

Lemma faithful_visit (fix_ : bool) (prefix_len : Z) (dirpath : list str)
    (name : str) (is_dir : bool) (st : state) (new_name : str) (st' : state) :
  visit_entry dirpath name is_dir fix_ prefix_len st = Done (new_name, st') ->
  faithful st st'.
Proof.
  destruct st as [w t]; intros H.
  apply visit_entry_inv in H as (e & wn & did & w' & Hc & ->).
  eexists; split; [reflexivity|]; constructor; [|constructor].
  cbn [v_renamed v_new_name v_name].
  apply check_and_maybe_fix_inv in Hc
    as (_ & [(-> & -> & _) | (-> & _ & _ & Hne & _)]).
  - rewrite str_eqb_refl; reflexivity.
  - apply str_eqb_neq in Hne; rewrite Hne; reflexivity.
Qed.

Lemma faithful_descend (w : world) (t : totals) (dirname : str) (i : nat)
    (sub : listing) (w1 : world) (t1 : totals) :
  lookup dirname (entries w) = Some (Dir i sub) ->
  faithful (mk_world sub (calls w) (permits w), t) (w1, t1) ->
  faithful (w, t)
    (mk_world (replace_node dirname (Dir i (entries w1)) (entries w)) (calls w1)
       (permits w), t1).
Proof. intros _ H; exact H. Qed.



(** ** More on the sanitized name *)

Lemma rfind_from_lower (c : char) (s : str) :
  forall i last, 0 <= i -> -1 <= last -> -1 <= rfind_from c s i last.
Proof.
  induction s as [|x t IH]; intros i last Hi Hl; simpl; [assumption|].
  apply IH; [lia|]; destruct (N.eqb x c); lia.
Qed.

Lemma splitext_root_not_nil (p : str) : p <> [] -> fst (splitext p) <> [].
Proof.
  intros Hp; unfold splitext.
  pose proof (rfind_from_lower 47%N p 0 (-1) ltac:(lia) ltac:(lia)) as Hs.
  fold (rfind 47%N p) in Hs.
  destruct (rfind 47%N p <? rfind 46%N p); [|exact Hp].
  destruct (forallb _ _) eqn:E; [exact Hp|]; cbn [fst].
  unfold first_chars in *.
  destruct (Z.to_nat (rfind 46%N p - (rfind 47%N p + 1))) as [|k] eqn:Ek;
    [discriminate E|].
  destruct (Z.to_nat (rfind 46%N p)) as [|j] eqn:Ej; [lia|].
  destruct p; [contradiction | discriminate].
Qed.

Lemma limit_name_len_first (n : str) (c : char) :
  n <> [] -> len (extension n) < MAX_NAME_LEN ->
  startswith (limit_name_len n) c = startswith n c.
Proof.
  intros Hn Hext; unfold limit_name_len, extension in *.
  destruct (MAX_NAME_LEN <? len n); [|reflexivity].
  pose proof (splitext_root_not_nil n Hn) as Hr.
  destruct (splitext n) as [root ext] eqn:E; cbn [fst snd] in *.
  apply splitext_app in E; subst n.
  replace (MAX_NAME_LEN - len ext <=? 0) with false
    by (symmetry; apply Z.leb_gt; lia).
  unfold first_chars.
  destruct (Z.to_nat (MAX_NAME_LEN - len ext)) as [|k] eqn:Ek; [lia|].
  destruct root; [contradiction | reflexivity].
Qed.

(** X8: the sanitized name never holds a problematic character; and
    when the extension of the name before the shortening step has fewer
    than 255 characters, it does not start with a tilde, so neither of
    the two warnings that fix mode acts on fires on it. *)
Theorem sanitized_name_no_warning (s : str) :
  is_nil (has_problematic_chars (make_safe_name s)) = true
  /\ (len (extension (safe_name_unbounded s)) < MAX_NAME_LEN ->
      startswith (make_safe_name s) 126%N = false
      /\ fix_escalated (make_safe_name s) = false).
Proof.
  assert (H : is_nil (has_problematic_chars (make_safe_name s)) = true)
    by apply clean_no_problematic, make_safe_name_clean.
  split; [assumption|]; intros Hext.
  assert (Ht : startswith (make_safe_name s) 126%N = false).
  { unfold make_safe_name.
    rewrite limit_name_len_first;
      [apply safe_name_unbounded_no_tilde
      | apply safe_name_unbounded_not_nil | assumption]. }
  split; [assumption|].
  unfold fix_escalated; rewrite H, Ht; reflexivity.
Qed.

Lemma sanitized_name_no_warning_witness :
  startswith (make_safe_name (py "~$budget#2.xlsx")) 126%N = false
  /\ fix_escalated (make_safe_name (py "~$budget#2.xlsx")) = false.
Proof.
  apply (proj2 (sanitized_name_no_warning (py "~$budget#2.xlsx"))).
  vm_compute; reflexivity.
Defined.

Lemma safe_chars_origin (s : str) :
  Forall (fun c => c = 95%N \/ In c s) (safe_chars s).
Proof.
  induction s as [|x t IH]; simpl; [constructor|].
  assert (IH' : Forall (fun c => c = 95%N \/ (x = c \/ In c t)) (safe_chars t))
    by (eapply Forall_impl; [|exact IH]; cbv beta; tauto).
  destruct (is_control x); [assumption|].
  destruct (is_zero_width_or_rtl x); [assumption|].
  destruct (_ || _); constructor; auto.
Qed.

(** X10: every character of the sanitized name is an underscore or a
    character of the input that is neither forbidden nor problematic,
    control or zero-width: the sanitizer brings in no character but the
    underscore. *)
Theorem sanitized_name_chars (s : str) :
  Forall (fun c => c = 95%N \/ (In c s /\ clean_char c = true)) (make_safe_name s).
Proof.
  assert (H : Forall (fun c => c = 95%N \/ In c s) (make_safe_name s)).
  { apply limit_name_len_Forall.
    assert (Hs : Forall (fun c => c = 95%N \/ In c s) (stripped_name s)).
    { unfold stripped_name; cbv zeta.
      set (n1 := if startswith _ _ then _ else _).
      assert (H1 : Forall (fun c => c = 95%N \/ In c s) n1).
      { subst n1; destruct (startswith _ _).
        - constructor; [left; reflexivity|].
          apply Forall_skipn, safe_chars_origin.
        - apply safe_chars_origin. }
      apply (rstrip_Forall _ (py " .")) in H1.
      destruct (rstrip _ n1); [repeat constructor | assumption]. }
    rewrite safe_name_unbounded_eq; cbv zeta.
    destruct (str_in _ _); [|assumption].
    apply Forall_app; split; [apply split_head_Forall; assumption|].
    apply Forall_app; split; [repeat constructor|].
    apply Forall_skipn; assumption. }
  pose proof (make_safe_name_clean s) as Hc; unfold clean in Hc.
  rewrite Forall_forall in *; intros c Hin.
  destruct (H c Hin) as [-> | Hs]; [left; reflexivity | right].
  split; [assumption | apply Hc; assumption].
Qed.

(** X12: on the sanitized name of a name of at most 253 characters no
    check of the rule engine on names fires, errors and warnings alike,
    and the length of the name included. *)
Theorem short_name_sanitized_compliant (s : str) :
  len s <= 253 -> compliant (make_safe_name s) = true.
Proof.
  intros H; apply make_safe_name_unshortened, short_input_unshortened; assumption.
Qed.

Lemma short_name_sanitized_compliant_witness :
  compliant (make_safe_name (py "~lpt1 <draft>#3.tar.gz . ")) = true.
Proof.
  apply short_name_sanitized_compliant; vm_compute; discriminate.
Defined.

Lemma make_safe_name_fixed_point_255_witness :
  make_safe_name (make_safe_name reserved_fixed_name)
    = make_safe_name reserved_fixed_name.
Proof.
  apply make_safe_name_fixed_point_255; vm_compute; discriminate.
Defined.

Lemma make_safe_name_end_255_witness :
  endswith (make_safe_name (py "CON .a. ")) 32%N = false
  /\ endswith (make_safe_name (py "CON .a. ")) 46%N = false.
Proof.
  apply make_safe_name_end_255; vm_compute; discriminate.
Defined.

(** When the extension alone has 255 characters or more, the name that
    is left can start with a tilde. *)
Example tilde_after_fallback :
  make_safe_name (py "a.~" ++ repeat 121%N 254) = py "~" ++ repeat 121%N 254.
Proof. vm_compute; reflexivity. Qed.

(** ** The name an entry is renamed to *)

Lemma digit_clean (c : char) : (48 <= c <= 57)%N -> clean_char c = true.
Proof.
  intros H.
  assert (E : c = 48%N \/ c = 49%N \/ c = 50%N \/ c = 51%N \/ c = 52%N
              \/ c = 53%N \/ c = 54%N \/ c = 55%N \/ c = 56%N \/ c = 57%N) by lia.
  repeat destruct E as [-> | E]; try subst c; reflexivity.
Qed.

Lemma str_of_nat_clean (n : nat) : clean (str_of_nat n).
Proof.
  unfold str_of_nat, clean.
  induction (Nat.to_uint n) as [|u IH|u IH|u IH|u IH|u IH|u IH|u IH|u IH|u IH|u IH];
    simpl; constructor; try exact IH; apply digit_clean; vm_compute;
    split; discriminate.
Qed.

Lemma numbered_clean (desired : str) (k : nat) :
  clean desired -> clean (numbered desired k).
Proof.
  unfold numbered, clean; intros H.
  destruct (splitext desired) as [root ext] eqn:E.
  apply splitext_app in E; subst desired.
  apply Forall_app in H as [Hr He].
  apply Forall_app; split; [assumption|].
  apply Forall_app; split; [repeat constructor|].
  apply Forall_app; split; [apply str_of_nat_clean | assumption].
Qed.

Lemma numbered_not_nil (desired : str) (k : nat) : numbered desired k <> [].
Proof.
  unfold numbered; destruct (splitext desired) as [root ext].
  destruct root; discriminate.
Qed.

Lemma str_of_nat_digits (n : nat) :
  Forall (fun c => (48 <= c <= 57)%N) (str_of_nat n).
Proof.
  unfold str_of_nat.
  induction (Nat.to_uint n) as [|u IH|u IH|u IH|u IH|u IH|u IH|u IH|u IH|u IH|u IH];
    simpl; constructor; try exact IH; vm_compute; split; discriminate.
Qed.

(** X14: the name a call renames an entry to holds no forbidden,
    problematic, control or zero-width character, is not empty, and is
    the name of no entry the directory held.  It is the sanitized name
    of the entry, or the root of that name, an underscore, a counter
    written in decimal digits and the extension of that name: the
    counter that avoids a collision brings in an underscore and digits
    only. *)
Theorem renamed_name_clean (dirpath : list str) (basename : str)
    (is_dir fix_ : bool) (prefix_len : Z) (w : world)
    (e wn : Z) (new_name : str) (w' : world) :
  check_and_maybe_fix dirpath basename is_dir fix_ prefix_len w
    = Done (e, wn, new_name, true, w') ->
  no_bad_chars new_name = true
  /\ is_nil (has_problematic_chars new_name) = true
  /\ new_name <> []
  /\ ~ In new_name (map fst (entries w))
  /\ (new_name = make_safe_name basename
      \/ exists k,
           (1 <= k <= S (length (entries w)))%nat
           /\ new_name = fst (splitext (make_safe_name basename)) ++ py "_"
                         ++ str_of_nat k ++ snd (splitext (make_safe_name basename))
           /\ Forall (fun c => (48 <= c <= 57)%N) (str_of_nat k)).
Proof.
  intros H.
  apply check_and_maybe_fix_inv in H
    as (_ & [(Hd & _) | (_ & _ & _ & _ & Hu & _)]); [discriminate|].
  assert (Hfree : ~ In new_name (map fst (entries w)))
    by (apply path_exists_not_In; eapply get_unique_name_done; eassumption).
  assert (Hform : new_name = make_safe_name basename
                  \/ exists k, (1 <= k <= S (length (entries w)))%nat
                       /\ new_name = numbered (make_safe_name basename) k).
  { apply unique_loop_candidate in Hu as [-> | (j & Hj & ->)];
      [left; reflexivity | right].
    exists j; split; [lia | reflexivity]. }
  assert (Hc : clean new_name /\ new_name <> []).
  { destruct Hform as [-> | (k & _ & ->)].
    - split; [apply make_safe_name_clean | apply make_safe_name_not_empty].
    - split; [apply numbered_clean, make_safe_name_clean | apply numbered_not_nil]. }
  destruct Hc as [Hc Hne].
  split; [apply clean_no_bad_chars; assumption|].
  split; [apply clean_no_problematic; assumption|].
  split; [assumption|]; split; [assumption|].
  destruct Hform as [-> | (k & Hk & ->)]; [left; reflexivity | right].
  exists k; split; [assumption|]; split; [|apply str_of_nat_digits].
  unfold numbered; destruct (splitext (make_safe_name basename)); reflexivity.
Qed.

Lemma renamed_name_clean_witness :
  no_bad_chars (py "My File_1_1.txt") = true
  /\ is_nil (has_problematic_chars (py "My File_1_1.txt")) = true
  /\ py "My File_1_1.txt" <> []
  /\ ~ In (py "My File_1_1.txt") [py "My File#1.txt"; py "My File_1.txt"]
  /\ (py "My File_1_1.txt" = make_safe_name (py "My File#1.txt")
      \/ exists k,
           (1 <= k <= 3)%nat
           /\ py "My File_1_1.txt"
              = fst (splitext (make_safe_name (py "My File#1.txt"))) ++ py "_"
                ++ str_of_nat k ++ snd (splitext (make_safe_name (py "My File#1.txt")))
           /\ Forall (fun c => (48 <= c <= 57)%N) (str_of_nat k)).
Proof.
  apply (renamed_name_clean [] (py "My File#1.txt") false true 0
           (mk_world [(py "My File#1.txt", File 1); (py "My File_1.txt", File 2)] []
              (name_limit 255))
           0 1 (py "My File_1_1.txt")
           (mk_world [(py "My File_1_1.txt", File 1); (py "My File_1.txt", File 2)]
              [Rename [] (py "My File#1.txt") (py "My File_1_1.txt")]
              (name_limit 255))).
  vm_compute; reflexivity.
Defined.

(** ** The names of the tree after a run in fix mode *)

Lemma clean_name_clean (name : str) : clean_name name = true <-> clean name.
Proof. unfold clean_name, clean; rewrite forallb_forall, Forall_forall; tauto. Qed.

(** In fix mode the name an entry bears after the call holds no
    offending character, renamed or not. *)
Lemma fix_mode_result (dirpath : list str) (basename : str) (is_dir : bool)
    (prefix_len : Z) (w : world) (e wn : Z) (new_name : str) (did : bool)
    (w' : world) :
  check_and_maybe_fix dirpath basename is_dir true prefix_len w
    = Done (e, wn, new_name, did, w') ->
  clean new_name
  /\ entries w' = replace_name basename new_name (entries w)
  /\ (new_name = basename \/ ~ In new_name (map fst (entries w))).
Proof.
  unfold check_and_maybe_fix; cbv zeta; rewrite classify_eq; cbn [andb].
  destruct (name_error basename || fix_escalated basename) eqn:Ern.
  - intros H; apply bind_Done in H as (c & Hu & H).
    assert (Hc : clean c).
    { pose proof Hu as Hl; unfold get_unique_name in Hl.
      apply unique_loop_least in Hl as [(_ & ->) | (_ & j & _ & -> & _)];
        [|apply numbered_clean]; apply make_safe_name_clean. }
    apply get_unique_name_done in Hu.
    destruct (str_eqb c basename) eqn:Ec; cbn [negb] in H.
    + apply str_eqb_eq in Ec; subst c; inversion H; subst.
      rewrite replace_name_same; auto.
    + apply bind_Done in H as (w1 & Hr & H); inversion H; subst.
      apply os_rename_inv in Hr; [|assumption].
      split; [assumption|]; split; [assumption|].
      right; apply path_exists_not_In; assumption.
  - intros H; inversion H; subst; rewrite replace_name_same.
    split; [|auto].
    apply orb_false_iff in Ern as [Hn Hf].
    unfold name_error in Hn; unfold fix_escalated in Hf.
    repeat rewrite orb_false_iff in Hn; rewrite !negb_false_iff in Hn.
    rewrite orb_false_iff, negb_false_iff in Hf.
    destruct Hn as (((((_ & H1) & _) & _) & H2) & H3); destruct Hf as [H4 _].
    apply no_bad_chars_clean; [|assumption].
    unfold no_bad_chars; rewrite H1, H2, H3; reflexivity.
Qed.

Lemma fix_visit_result (dirpath : list str) (name : str) (is_dir : bool)
    (prefix_len : Z) (w : world) (t : totals) (new_name : str)
    (w' : world) (t' : totals) :
  visit_entry dirpath name is_dir true prefix_len (w, t) = Done (new_name, (w', t')) ->
  NoDup (map fst (entries w)) ->
  NoDup (map fst (entries w'))
  /\ forall n, In n (map fst (entries w')) ->
       clean n \/ (In n (map fst (entries w)) /\ n <> name).
Proof.
  intros H Hnd.
  apply visit_entry_inv in H as (e & wn & did & w1 & Hc & Hst).
  inversion Hst; subst w1; clear Hst.
  apply fix_mode_result in Hc as (Hcl & He & Hnew).
  rewrite He; split; [apply replace_name_NoDup; assumption|].
  intros n Hn.
  destruct (list_eq_dec N.eq_dec n new_name) as [-> | Hne]; [left; assumption|].
  right; split.
  - apply replace_name_names in Hn as [-> | Hn]; [contradiction | assumption].
  - intros ->.
    assert (Hold : lookup name (replace_name name new_name (entries w)) = None)
      by (apply lookup_replace_name_old; congruence).
    apply lookup_None in Hold; contradiction.
Qed.

Lemma files_loop_names (dirpath : list str) (prefix_len : Z) :
  forall (rest : list str) (w : world) (t : totals) (w' : world) (t' : totals),
    NoDup (map fst (entries w)) ->
    files_loop dirpath true prefix_len rest (w, t) = Done (w', t') ->
    NoDup (map fst (entries w'))
    /\ forall n, In n (map fst (entries w')) ->
         clean n \/ (In n (map fst (entries w)) /\ ~ In n rest).
Proof.
  induction rest as [|f rest IH]; intros w t w' t' Hnd H; cbn [files_loop] in H.
  - inversion H; subst; split; [assumption|]; intros n Hn; right; auto.
  - apply bind_Done in H as ([new_name [w1 t1]] & Hv & H).
    apply fix_visit_result in Hv as [Hnd1 Hv]; [|assumption].
    apply IH in H as [Hnd2 H]; [|assumption].
    split; [assumption|]; intros n Hn.
    destruct (H n Hn) as [Hc | [H1 Hr]]; [left; assumption|].
    destruct (Hv n H1) as [Hc | [H0 Hf]]; [left; assumption|].
    right; split; [assumption|]; intros [E | E]; [congruence | contradiction].
Qed.

Lemma dirs_loop_names (dirpath : list str) (prefix_len : Z) :
  forall (snapshot : list (nat * str)) (dirnames : list str) (w : world)
         (t : totals) (dirnames' : list str) (w' : world) (t' : totals),
    NoDup (map fst (entries w)) ->
    dirs_loop dirpath true prefix_len snapshot dirnames (w, t)
      = Done (dirnames', (w', t')) ->
    NoDup (map fst (entries w'))
    /\ forall n, In n (map fst (entries w')) ->
         clean n \/ (In n (map fst (entries w)) /\ ~ In n (map snd snapshot)).
Proof.
  induction snapshot as [|[i d] rest IH]; intros dn w t dn' w' t' Hnd H;
    cbn [dirs_loop] in H.
  - inversion H; subst; split; [assumption|]; intros n Hn; right; auto.
  - apply bind_Done in H as ([new_name [w1 t1]] & Hv & H).
    apply bind_Done in H as (dn1 & _ & H).
    apply fix_visit_result in Hv as [Hnd1 Hv]; [|assumption].
    apply IH in H as [Hnd2 H]; [|assumption].
    split; [assumption|]; intros n Hn.
    destruct (H n Hn) as [Hc | [H1 Hr]]; [left; assumption|].
    destruct (Hv n H1) as [Hc | [H0 Hf]]; [left; assumption|].
    right; split; [assumption|]; cbn [map snd].
    intros [E | E]; [congruence | contradiction].
Qed.

Lemma name_of_some_kind (d : listing) (n : str) :
  In n (map fst d) -> In n (dir_names d) \/ In n (file_names d).
Proof.
  unfold dir_names, file_names; intros H.
  apply in_map_iff in H as ([m x] & <- & H); cbn [fst].
  destruct (is_dir_node x) eqn:E; [left | right];
    apply in_map_iff; exists (m, x); split; try reflexivity;
    apply filter_In; split; try assumption; cbn [snd]; rewrite E; reflexivity.
Qed.

Lemma enumerate_snd {A : Type} (l : list A) : map snd (enumerate l) = l.
Proof.
  unfold enumerate; generalize 0%nat.
  induction l as [|x t IH]; intros k; simpl; [reflexivity|].
  rewrite IH; reflexivity.
Qed.

(** After the body of the loop has run in fix mode, no name of the
    directory holds an offending character. *)
Lemma validate_body_names (dirpath : list str) (prefix_len : Z) (d : listing)
    (c : list syscall) (os : policy) (t : totals) (dirs' : list str)
    (w' : world) (t' : totals) :
  NoDup (map fst d) ->
  validate_body true prefix_len dirpath (dir_names d) (file_names d)
    (mk_world d c os, t) = Done (dirs', (w', t')) ->
  forall n, In n (map fst (entries w')) -> clean n.
Proof.
  intros Hnd H; unfold validate_body in H.
  apply bind_Done in H as ([dn [w1 t1]] & Hd & H).
  apply bind_Done in H as ([w2 t2] & Hf & H); inversion H; subst.
  apply dirs_loop_names in Hd as [Hnd1 Hd]; [|assumption].
  apply files_loop_names in Hf as [Hnd2 Hf]; [|assumption].
  cbn [entries] in *; rewrite enumerate_snd in Hd.
  intros n Hn.
  destruct (Hf n Hn) as [Hc | [H1 Hnf]]; [assumption|].
  destruct (Hd n H1) as [Hc | [H0 Hnd0]]; [assumption|].
  destruct (name_of_some_kind d n H0); contradiction.
Qed.

Lemma In_replace_node (a : str) (y : node) (d : listing) (n : str) (x : node) :
  NoDup (map fst d) ->
  In (n, x) (replace_node a y d) ->
  (n = a /\ x = y) \/ (n <> a /\ In (n, x) d).
Proof.
  induction d as [|[m z] l IH]; simpl; intros Hnd H; [contradiction|].
  inversion Hnd as [|? ? Hm Hl]; subst.
  destruct (str_eqb m a) eqn:E.
  - apply str_eqb_eq in E; subst m.
    destruct H as [H | H]; [inversion H; auto|].
    right; split; [|auto].
    intros ->; apply Hm; apply (in_map fst) in H; assumption.
  - apply str_eqb_neq in E.
    destruct H as [H | H]; [inversion H; subst; auto|].
    destruct (IH Hl H) as [? | [? ?]]; auto.
Qed.

(** The descent leaves the names of the directory as they are and a
    tree without offending names below each name it went into. *)
Lemma descend_clean (walk_dir : list str -> state -> outcome state) (top : list str) :
  forall (ds : list str) (w : world) (t : totals) (w' : world) (t' : totals),
    NoDup (map fst (entries w)) ->
    NoDup ds ->
    (forall d, In d ds ->
       exists i sub,
         lookup d (entries w) = Some (Dir i sub)
         /\ forall p c t0 w1 t1,
              walk_dir p (mk_world sub c (permits w), t0) = Done (w1, t1) ->
              tree_clean (entries w1) = true) ->
    descend walk_dir top ds (w, t) = Done (w', t') ->
    map fst (entries w') = map fst (entries w)
    /\ forall n x, In (n, x) (entries w') ->
         (In n ds /\ node_clean x = true) \/ (~ In n ds /\ In (n, x) (entries w)).
Proof.
  induction ds as [|d ds IH]; intros w t w' t' Hnd Hds Hall H; cbn [descend] in H.
  - inversion H; subst; split; [reflexivity|]; intros n x Hx; right; auto.
  - destruct (Hall d (or_introl eq_refl)) as (i & sub & Hl & Hw).
    rewrite Hl in H.
    apply bind_Done in H as ([w1 t1] & Hrun & H).
    apply Hw in Hrun.
    inversion Hds as [|? ? Hd Hds']; subst.
    apply IH in H as [Hnames H]; cbn [entries] in *;
      [| rewrite replace_node_fst; assumption | assumption |].
    + rewrite replace_node_fst in Hnames; split; [assumption|].
      intros n x Hx.
      destruct (H n x Hx) as [[Hn Hc] | [Hn Hin]]; [left; split; [right|]; assumption|].
      apply In_replace_node in Hin as [[-> ->] | [Hne Hin]]; [| | assumption].
      * left; split; [left; reflexivity | exact Hrun].
      * right; split; [|assumption].
        intros [E | E]; [congruence | contradiction].
    + intros r Hr.
      rewrite lookup_replace_node_other by (intros ->; contradiction).
      apply Hall; right; assumption.
Qed.

Lemma os_walk_clean (prefix_len limit : Z) (os : policy) (fuel : nat) :
  lenient true limit os ->
  forall d : listing,
    (depth d <= fuel)%nat -> well_formed d = true ->
    roomy true limit d = true ->
    forall top c t w' t',
      os_walk fuel (validate_body true prefix_len) top (mk_world d c os, t)
        = Done (w', t') ->
      tree_clean (entries w') = true.
Proof.
  intros Hos.
  induction fuel as [|fuel IH]; intros d Hdepth Hwf Hroom top c t w' t' H;
    [discriminate H|].
  destruct (well_formed_inv _ Hwf) as [Hnd Hsub].
  destruct (roomy_inv _ _ _ Hroom) as [Hfit Hrsub].
  cbn [os_walk fst entries] in H.
  destruct (validate_body_spec true prefix_len limit os Hos top d c t Hnd Hfit)
    as (w1 & t1 & Hb & Hnd1 & Hs1 & _ & Hp1).
  pose proof (validate_body_names top prefix_len d c os t _ _ _ Hnd Hb) as Hclean.
  rewrite Hb in H; cbn [bind] in H.
  apply descend_clean in H as [Hnames H]; [|assumption| |].
  - unfold tree_clean; apply forallb_forall; intros [n x] Hx; cbn [fst snd].
    apply andb_true_iff; split.
    + apply clean_name_clean, Hclean; rewrite <- Hnames.
      apply (in_map fst) in Hx; assumption.
    + destruct (H n x Hx) as [[_ Hc] | [Hn Hin]]; [assumption|].
      destruct x as [i | i sub]; [reflexivity|].
      exfalso; apply Hn; unfold dir_names.
      apply in_map_iff; exists (n, Dir i sub); split; [reflexivity|].
      apply filter_In; split; [assumption | reflexivity].
  - apply NoDup_map_filter; assumption.
  - intros n Hn.
    destruct (dir_names_lookup _ _ Hnd1 Hn) as (i & sub & Hl & Hin).
    exists i, sub; split; [assumption|].
    apply (in_map snd) in Hin; rewrite Hs1 in Hin; cbn [snd] in Hin.
    apply in_map_iff in Hin as ([m x] & Hx & Hin); cbn [snd] in Hx; subst x.
    rewrite Hp1.
    intros p c0 t0 w2 t2; apply IH;
      [|apply (Hsub _ _ _ Hin) | apply (Hrsub _ _ _ Hin)].
    apply depth_child in Hin; lia.
Qed.


